(** * maezato: clone every repository of a GitHub user

    A shallow embedding of [index.js]: the classifier and clone target of
    [cloneRepo], the remote registration of [addRemote] and [getFork], the
    batch of [handleRepos], the listing of [getRepos], the driver [run] and
    the exported [parseJson].

    The program is one sequential promise chain, so a promise is modelled by
    the computation that settles it: a function from the program state to the
    settled value (fulfilled or rejected), the next state and the calls made
    to the outside world on the way. *)

From Stdlib Require Import String Ascii List Bool Arith ZArith Lia.
Import ListNotations.
Open Scope string_scope.

Set Warnings "-register-all".

(** ** JavaScript values the program handles *)

(** A repository object of the GitHub API.  The listing and the single
    repository record have the same shape; [parent] and [source] are only
    present in the single record of a fork. *)
Inductive Repo : Type :=
  mkRepo {
    name : string;
    ssh_url : string;
    fork : bool;
    owner_login : string;
    parent : option Repo;
    source : option Repo
  }.

(** Errors that travel through the promise chain.  Only the HTTP error of
    [got] carries a [response] property. *)
Inductive JsError : Type :=
| HTTPError (body : string)
| RequestError (code : string)
| ExecError (cmd : string) (stderr : string)
| FsError (path : string)
| SyntaxError (message : string)
| TypeError (message : string).

(** [error.response], and [undefined] where the property is absent. *)
Definition response (error : JsError) : option string :=
  match error with
  | HTTPError body => Some body
  | _ => None
  end.

(** The options object built by [bin/maezato.js] and stored in [cmdOptions]. *)
Record Options : Type :=
  mkOptions {
    token : string;
    verbose : bool;
    omitUsername : bool;
    username : string;
    cloneBaseDir : string
  }.

(** The part of the [progress] bar the program relies on. *)
Record Progress : Type :=
  mkProgress {
    total : nat;
    curr : nat
  }.

(** ** The outside world *)

(** What the callback of [child_process.exec] receives: whether [error] is
    set, and the two output streams. *)
Record ExecResult : Type :=
  mkExecResult {
    failed : bool;
    stdout : string;
    stderr : string
  }.

(** How a [got] promise settles. *)
Inductive GotResult (A : Type) : Type :=
| GotResponse (body : A)
| GotHTTPError (body : string)
| GotRequestError (code : string).
Arguments GotResponse {A} body.
Arguments GotHTTPError {A} body.
Arguments GotRequestError {A} code.

Inductive Json : Type :=
| JNull
| JBool (b : bool)
| JNumber (n : Z)
| JString (s : string)
| JArray (l : list Json)
| JObject (l : list (string * Json)).

(** The collaborators of the program: the shell, the forge, the file system
    and the two built-ins [path.join] and [JSON.parse].  Each call may depend
    on, and change, the state of the world. *)
Record Platform : Type :=
  mkPlatform {
    World : Type;
    exec : World -> string -> string -> ExecResult * World;
    got_repos : World -> string -> GotResult (list Repo) * World;
    got_repo : World -> string -> GotResult Repo * World;
    mkdirp : World -> string -> bool * World;
    path_join : list string -> string;
    JSON_parse : string -> Json + string
  }.

(** Calls to the outside, in the order the program makes them. *)
Inductive Event : Type :=
| ConsoleLog (message : string)
| ConsoleError (message : string)
| Mkdirp (path : string)
| Exec (cwd : string) (command : string)
| Got (url : string).

(** ** Promises *)

Inductive Settled (A : Type) : Type :=
| Fulfilled (value : A)
| Rejected (error : JsError).
Arguments Fulfilled {A} value.
Arguments Rejected {A} error.

Definition GH_API_URL : string := "https://api.github.com/".
Definition INDEX_NOT_FOUND : Z := (-1)%Z.

(** [haystack.indexOf(needle)] *)
Definition indexOf (haystack needle : string) : Z :=
  match String.index 0 needle haystack with
  | Some n => Z.of_nat n
  | None => (-1)%Z
  end.

Definition dquote : string := String (ascii_of_nat 34) EmptyString.

Section Program.

Variable P : Platform.

(** The module-level [progressBar] and the world. *)
Record State : Type :=
  mkState {
    world : World P;
    progressBar : Progress
  }.

Definition Promise (A : Type) : Type :=
  State -> Settled A * State * list Event.

Definition resolve {A} (value : A) : Promise A :=
  fun s => (Fulfilled value, s, []).

Definition throw {A} (error : JsError) : Promise A :=
  fun s => (Rejected error, s, []).

(** [p.then(f)]: [f] runs only when [p] fulfils. *)
Definition then_ {A B} (p : Promise A) (f : A -> Promise B) : Promise B :=
  fun s =>
    match p s with
    | (Fulfilled v, s1, t1) =>
        match f v s1 with
        | (r, s2, t2) => (r, s2, (t1 ++ t2)%list)
        end
    | (Rejected e, s1, t1) => (Rejected e, s1, t1)
    end.

(** [p.catch(h)]: [h] runs only when [p] rejects. *)
Definition catch_ {A} (p : Promise A) (h : JsError -> Promise A) : Promise A :=
  fun s =>
    match p s with
    | (Fulfilled v, s1, t1) => (Fulfilled v, s1, t1)
    | (Rejected e, s1, t1) =>
        match h e s1 with
        | (r, s2, t2) => (r, s2, (t1 ++ t2)%list)
        end
    end.

Notation "x <- p ;; k" := (then_ p (fun x => k))
  (at level 61, p at next level, right associativity).
Notation "p ;; k" := (then_ p (fun _ => k))
  (at level 61, right associativity).

Definition emit (ev : Event) : Promise unit :=
  fun s => (Fulfilled tt, s, [ev]).

Definition console_log (message : string) : Promise unit :=
  emit (ConsoleLog message).

Definition console_error (message : string) : Promise unit :=
  emit (ConsoleError message).

Definition when (b : bool) (p : Promise unit) : Promise unit :=
  if b then p else resolve tt.

(** [exec(command, {cwd: cwd, ...}, callback)] *)
Definition call_exec (cwd command : string) : Promise ExecResult :=
  fun s =>
    match exec P (world s) cwd command with
    | (r, w) => (Fulfilled r, mkState w (progressBar s), [Exec cwd command])
    end.

Definition settle_got {A} (r : GotResult A) : Settled A :=
  match r with
  | GotResponse body => Fulfilled body
  | GotHTTPError body => Rejected (HTTPError body)
  | GotRequestError code => Rejected (RequestError code)
  end.

(** [got(url, gotOptions)] followed by [response.body] *)
Definition call_got_repos (url : string) : Promise (list Repo) :=
  fun s =>
    match got_repos P (world s) url with
    | (r, w) => (settle_got r, mkState w (progressBar s), [Got url])
    end.

Definition call_got_repo (url : string) : Promise Repo :=
  fun s =>
    match got_repo P (world s) url with
    | (r, w) => (settle_got r, mkState w (progressBar s), [Got url])
    end.

(** [mkdirp.sync(path)], which throws when the directory cannot be made. *)
Definition call_mkdirp (path : string) : Promise unit :=
  fun s =>
    match mkdirp P (world s) path with
    | (ok, w) =>
        (if ok then Fulfilled tt else Rejected (FsError path),
         mkState w (progressBar s), [Mkdirp path])
    end.

(** [new Progress(fmt, {total: n, ...})] assigned to [progressBar] *)
Definition new_Progress (n : nat) : Promise unit :=
  fun s => (Fulfilled tt, mkState (world s) (mkProgress n 0), []).

(** [progressBar.tick()] *)
Definition tick : Promise unit :=
  fun s =>
    (Fulfilled tt,
     mkState (world s)
       (mkProgress (total (progressBar s)) (curr (progressBar s) + 1)),
     []).

(** [progressBar.render()] only redraws the bar. *)
Definition render : Promise unit := resolve tt.

(** [each(fn)(arr)] of promise-each: a reduce over the array that chains
    [fn(curr)] on the promise of the previous element; the values of the
    elements are dropped and the chain fulfils with [undefined]. *)
Fixpoint reduce_then {A B} (fn : A -> Promise B) (arr : list A)
    (prev : Promise unit) : Promise unit :=
  match arr with
  | [] => prev
  | curr :: rest => reduce_then fn rest (prev ;; (fn curr ;; resolve tt))
  end.

Definition each {A B} (fn : A -> Promise B) (arr : list A) : Promise unit :=
  reduce_then fn arr (resolve tt) ;; resolve tt.

(** The same chain read as a recursion over the array: one element after the
    other, stopping at the first rejection ([reduce_then_in_turn] below). *)
Fixpoint in_turn {A B} (fn : A -> Promise B) (arr : list A) : Promise unit :=
  match arr with
  | [] => resolve tt
  | curr :: rest => fn curr ;; in_turn fn rest
  end.

(** ** The program *)

Variable cmdOptions : Options.

(** Safe parsing JSON *)
Definition parseJson (text : string) : Promise (option Json) :=
  catch_
    (match JSON_parse P text with
     | inl data => resolve (Some data)
     | inr message => throw (SyntaxError message)
     end)
    (fun error =>
       console_error (" Parsing JSON failed. " ++
         match error with
         | SyntaxError message => "SyntaxError: " ++ message
         | _ => "Error"
         end) ;;
       resolve None).

(** Get a list of repositories *)
Definition getRepos : Promise (option (list Repo)) :=
  when (verbose cmdOptions)
    (console_log ("Fetching information about all the user repositories for "
       ++ dquote ++ username cmdOptions ++ dquote)) ;;
  catch_
    (body <- call_got_repos (GH_API_URL ++ "users/" ++ username cmdOptions
               ++ "/repos?type=all&per_page=100") ;;
     resolve (Some body))
    (fun error =>
       console_error " Fetching repository list failed." ;;
       match response error with
       | Some body => console_error body ;; resolve None
       | None => throw (TypeError "Cannot read property 'body' of undefined")
       end).

(** Item is passed on success *)
Definition addRemote (item : Repo) (forkPath name url : string) : Promise Repo :=
  let command := "git remote add " ++ name ++ " " ++ url in
  when (verbose cmdOptions)
    (console_log (" Adding remote information, " ++ name ++ " ==>  " ++ url)) ;;
  r <- call_exec forkPath command ;;
  if failed r &&
     (indexOf (stderr r) ("remote " ++ name ++ " already exists")
        =? INDEX_NOT_FOUND)%Z
  then
    console_error (" Adding remote " ++ dquote ++ name ++ dquote
                     ++ " failed for " ++ url) ;;
    throw (ExecError command (stderr r))
  else
    resolve item.

(** Get the information for a fork repository.
    - parent is the repository this repository was forked from
    - source is the ultimate source for the network *)
Definition getFork (forkPath user repo : string) : Promise (option Repo) :=
  let url := GH_API_URL ++ "repos/" ++ user ++ "/" ++ repo in
  catch_
    (item <- (body <- call_got_repo url ;;
              when (verbose cmdOptions)
                (console_log (" Received fork data for URL: " ++ url)) ;;
              resolve body) ;;
     item <- match parent item with
             | Some p => addRemote item forkPath "upstream" (ssh_url p)
             | None => throw (TypeError "Cannot read property 'ssh_url' of undefined")
             end ;;
     item <- match source item with
             | Some p => addRemote item forkPath "original" (ssh_url p)
             | None => throw (TypeError "Cannot read property 'ssh_url' of undefined")
             end ;;
     resolve (Some item))
    (fun error =>
       console_error " Getting fork details failed." ;;
       match response error with
       | Some body => console_error body ;; resolve None
       | None => throw (TypeError "Cannot read property 'body' of undefined")
       end).

(** The [type] of [cloneRepo]: the directory a repository is filed under. *)
Definition repoType (item : Repo) : string :=
  if fork item then "fork"
  else if (owner_login item =? username cmdOptions)%string then "mine"
  else "contributing".

(** The [clonePath] of [cloneRepo]. *)
Definition clonePath (item : Repo) : string :=
  if omitUsername cmdOptions
  then path_join P [cloneBaseDir cmdOptions; repoType item]
  else path_join P [cloneBaseDir cmdOptions; username cmdOptions; repoType item].

(** The executor of the promise [cloneRepo] builds around [git clone]. *)
Definition execClone (item : Repo) : Promise Repo :=
  let command := "git clone " ++ ssh_url item in
  r <- call_exec (clonePath item) command ;;
  tick ;;
  render ;;
  if failed r &&
     (indexOf (stderr r) "already exists and is not an empty directory"
        =? INDEX_NOT_FOUND)%Z
  then
    console_error (" Cloning failed for " ++ ssh_url item) ;;
    throw (ExecError command (stderr r))
  else
    resolve item.

(** The callback [cloneRepo] chains on the clone. *)
Definition afterClone (item : Repo) (data : Repo) : Promise (option Repo) :=
  tick ;;
  render ;;
  if fork data
  then getFork (path_join P [clonePath item; name data])
         (owner_login data) (name data)
  else resolve (Some data).

(** Clone a repository *)
Definition cloneRepo (item : Repo) : Promise (option Repo) :=
  call_mkdirp (clonePath item) ;;
  when (verbose cmdOptions)
    (console_log ("Cloning repository " ++ ssh_url item)) ;;
  data <- execClone item ;;
  afterClone item data.

(** [handleRepos(list)]; [list] is [undefined] when the listing failed. *)
Definition handleRepos (list : option (Datatypes.list Repo))
    : Promise unit :=
  match list with
  | None => throw (TypeError "Cannot read property 'length' of undefined")
  | Some list =>
      new_Progress (length list * 2) ;;
      each cloneRepo list
  end.

(** Executioner.  A rejected result is a rejection nothing handles. *)
Definition run : Promise unit :=
  console_log ("Cloning to a structure under " ++ dquote
                 ++ cloneBaseDir cmdOptions ++ dquote) ;;
  call_mkdirp (cloneBaseDir cmdOptions) ;;
  ((data <- getRepos ;; handleRepos data) ;;
   console_log "All done, thank you!").

End Program.

Arguments world {P} s.
Arguments progressBar {P} s.

(** ** Reading a settled promise *)

Definition settled {A S} (out : Settled A * S * list Event) : Settled A :=
  fst (fst out).

Definition final {A S} (out : Settled A * S * list Event) : S :=
  snd (fst out).

Definition events {A S} (out : Settled A * S * list Event) : list Event :=
  snd out.

(** The messages written with [console.error]. *)
Definition errors (t : list Event) : list string :=
  flat_map (fun ev => match ev with ConsoleError m => [m] | _ => [] end) t.

(** The shell commands run, each with its working directory. *)
Definition execs (t : list Event) : list (string * string) :=
  flat_map (fun ev => match ev with Exec cwd c => [(cwd, c)] | _ => [] end) t.

(** The URLs fetched from the forge. *)
Definition gots (t : list Event) : list string :=
  flat_map (fun ev => match ev with Got url => [url] | _ => [] end) t.

(** The directories ensured with [mkdirp]. *)
Definition mkdirps (t : list Event) : list string :=
  flat_map (fun ev => match ev with Mkdirp p => [p] | _ => [] end) t.

(** [p] never ticks, and every call it makes satisfies [Q]. *)
Definition steady (P : Platform) {A} (Q : Event -> Prop) (p : Promise P A)
    : Prop :=
  forall s, progressBar (final (p s)) = progressBar s /\
            Forall Q (events (p s)).

(** The progress bar after [n] more ticks. *)
Definition ticked (n : nat) (b : Progress) : Progress :=
  mkProgress (total b) (curr b + n).

(** What fork linking may do in the clone at [forkPath]: talk to the forge
    and the console, and run [git remote add] there. *)
Definition link_event (forkPath : string) (ev : Event) : Prop :=
  match ev with
  | Exec cwd command =>
      cwd = forkPath /\ prefix "git remote add " command = true
  | Mkdirp _ => False
  | _ => True
  end.

(** The [git clone] commands among the calls made. *)
Definition clone_attempts (t : list Event) : list string :=
  flat_map
    (fun ev =>
       match ev with
       | Exec _ command =>
           if prefix "git clone " command then [command] else []
       | _ => []
       end) t.

(** [needle] occurs somewhere in [haystack]. *)
Definition Contains (haystack needle : string) : Prop :=
  exists m, substring m (String.length needle) haystack = needle.

(** The tolerated diagnostics of [git clone] and [git remote add]. *)
Definition CLONE_EXISTS : string :=
  "already exists and is not an empty directory".

Definition remote_exists (name : string) : string :=
  "remote " ++ name ++ " already exists".

Definition clone_command (item : Repo) : string :=
  "git clone " ++ ssh_url item.

Definition remote_command (name url : string) : string :=
  "git remote add " ++ name ++ " " ++ url.

(** ** The classifier as the specification words it *)

Inductive Category : Type := Mine | Fork | Contributing.

Definition classify (isFork ownerIsActingUser : bool) : Category :=
  if isFork then Fork
  else if ownerIsActingUser then Mine
  else Contributing.

Definition pathFragment (c : Category) : string :=
  match c with
  | Mine => "mine"
  | Fork => "fork"
  | Contributing => "contributing"
  end.

(** ** More ways to read a trace *)

(** The messages written with [console.log]. *)
Definition logs (t : list Event) : list string :=
  flat_map (fun ev => match ev with ConsoleLog m => [m] | _ => [] end) t.

(** A trace without its [console.log] lines. *)
Definition without_logs (t : list Event) : list Event :=
  filter (fun ev => match ev with ConsoleLog _ => false | _ => true end) t.

(** [p] and [q] settle alike from every state and make the same calls, but
    for what they write with [console.log]. *)
Definition alike (P : Platform) {A} (p q : Promise P A) : Prop :=
  forall s,
    settled (p s) = settled (q s) /\
    final (p s) = final (q s) /\
    without_logs (events (p s)) = without_logs (events (q s)).

(** The same options with [verbose] off. *)
Definition quietly (cfg : Options) : Options :=
  mkOptions (token cfg) false (omitUsername cfg) (username cfg)
    (cloneBaseDir cfg).

(** Every call [p] makes satisfies [Q], whatever state it starts from. *)
Definition emits (P : Platform) {A} (Q : Event -> Prop) (p : Promise P A)
    : Prop :=
  forall s, Forall Q (events (p s)).

(** How the handler at the end of [getFork] settles the chain when [error]
    reaches it in state [s], after the calls [t]. *)
Definition link_failed (P : Platform) (error : JsError) (s : State P)
    (t : list Event) : Settled (option Repo) * State P * list Event :=
  match response error with
  | Some body =>
      (Fulfilled None, s,
       (t ++ [ConsoleError " Getting fork details failed.";
              ConsoleError body])%list)
  | None =>
      (Rejected (TypeError "Cannot read property 'body' of undefined"), s,
       (t ++ [ConsoleError " Getting fork details failed."])%list)
  end.

(** The URL of the single-repository record of [item]. *)
Definition lineage_url (item : Repo) : string :=
  GH_API_URL ++ "repos/" ++ owner_login item ++ "/" ++ name item.

(** What handling [item] may do outside the console: make its target
    directory, clone it there and, for a fork only, fetch its record and run
    [git remote add] in its clone. *)
Definition item_event (P : Platform) (cfg : Options) (item : Repo)
    (ev : Event) : Prop :=
  match ev with
  | Mkdirp p => p = clonePath P cfg item
  | Exec cwd command =>
      (cwd = clonePath P cfg item /\ command = clone_command item) \/
      (fork item = true /\
       cwd = path_join P [clonePath P cfg item; name item] /\
       prefix "git remote add " command = true)
  | Got url => fork item = true /\ url = lineage_url item
  | ConsoleLog _ => verbose cfg = true
  | ConsoleError _ => True
  end.

(** ** The command line, [bin/maezato.js] *)

(** The three fields the script reads of the parsed [package.json]. *)
Record Package : Type :=
  mkPackage {
    pkg_name : string;
    pkg_version : string;
    pkg_description : string
  }.

(** The [package.json] of the repository. *)
Definition package_json : Package :=
  mkPackage "maezato" "1.0.0"
    "Clone all repositories of a given user at GitHub".

(** What [optsParser.parse] returns: the flags, each possibly absent, and
    the positional arguments [opts._]. *)
Record Opts : Type :=
  mkOpts {
    opt_help : option bool;
    opt_version : option bool;
    opt_verbose : option bool;
    opt_token : option string;
    opt_omitUsername : option bool;
    opt_args : list string
  }.

(** What the script finds around it: the outcome of parsing [process.argv]
    (the options, or the message of the error thrown), the environment
    variable, the help text and [path.resolve]. *)
Record Shell : Type :=
  mkShell {
    parse_argv : Opts + string;
    GITHUB_TOKEN : option string;
    generateHelp : string;
    path_resolve : string -> string
  }.

(** How the script ends: [process.exit(code)], or the call of [maezato]. *)
Inductive Ending : Type :=
| Exit (code : nat)
| Launch (options : Options).

(** Truthiness of an optional flag and of an optional string. *)
Definition flag_set (flag : option bool) : bool :=
  match flag with
  | Some true => true
  | _ => false
  end.

Definition truthy (text : option string) : bool :=
  match text with
  | Some t => negb (t =? EmptyString)%string
  | None => false
  end.

(** [a || b] on optional strings. *)
Definition or_else (a b : option string) : option string :=
  if truthy a then a else b.

(** [typeof flag === 'boolean' ? flag : false] *)
Definition boolean_or_false (flag : option bool) : bool :=
  match flag with
  | Some b => b
  | None => false
  end.

(** The script up to the call of [maezato]: what it prints and how it ends.
    [opts._[0]] and [opts._[1]] are read only once [opts._] has two
    elements. *)
Definition main (pkg : Package) (sh : Shell) : list Event * Ending :=
  match parse_argv sh with
  | inr message => ([ConsoleError message], Exit 1)
  | inl opts =>
      if flag_set (opt_version opts) then
        ([ConsoleLog (pkg_version pkg)], Exit 0)
      else
        let banner :=
          ConsoleLog (pkg_name pkg ++ " - " ++ pkg_description pkg) in
        if flag_set (opt_help opts) then
          ([banner; ConsoleLog (generateHelp sh)], Exit 0)
        else if negb (length (opt_args opts) =? 1)%nat
                && negb (length (opt_args opts) =? 2)%nat then
          ([banner;
            ConsoleLog "Seem to be missing <username> or <target path>";
            ConsoleLog (generateHelp sh)], Exit 1)
        else
          let args := if (length (opt_args opts) =? 1)%nat
                      then (opt_args opts ++ ["."])%list
                      else opt_args opts in
          let token := or_else (opt_token opts) (GITHUB_TOKEN sh) in
          if negb (truthy token) then
            ([banner;
              ConsoleLog "GitHub authentication token missing";
              ConsoleLog
                "Please set it via GITHUB_TOKEN environment variable or --token option"],
             Exit 1)
          else
            ([banner],
             Launch
               (mkOptions
                  (match token with Some t => t | None => EmptyString end)
                  (boolean_or_false (opt_verbose opts))
                  (boolean_or_false (opt_omitUsername opts))
                  (nth 0 args "undefined")
                  (path_resolve sh (nth 1 args "undefined"))))
  end.

(** The whole command: the script, then [run] when [maezato] is called. *)
Definition command (P : Platform) (pkg : Package) (sh : Shell) (s : State P)
    : list Event * option (Settled unit) :=
  match main pkg sh with
  | (t, Exit _) => (t, None)
  | (t, Launch options) =>
      ((t ++ events (run P options s))%list, Some (settled (run P options s)))
  end.

(** ** A scripted platform to run the program on *)

Module Demo.

(** [path.join] on POSIX for segments that are already normalised: empty
    segments are skipped and the rest are joined with a slash. *)
Definition posix_join (parts : list string) : string :=
  String.concat "/" (filter (fun p => negb (p =? EmptyString)%string) parts).

(** A stand-in for [JSON.parse] that knows the three literals. *)
Definition parse_literal (text : string) : Json + string :=
  if (text =? "null")%string then inl JNull
  else if (text =? "true")%string then inl (JBool true)
  else if (text =? "false")%string then inl (JBool false)
  else inr "Unexpected token in JSON at position 0".

(** The world counts the calls made so far; what a call answers is scripted
    by the command or URL. *)
Definition platform
    (on_exec : string -> string -> ExecResult)
    (on_repos : string -> GotResult (list Repo))
    (on_repo : string -> GotResult Repo) : Platform :=
  {| World := nat;
     exec := fun w cwd command => (on_exec cwd command, S w);
     got_repos := fun w url => (on_repos url, S w);
     got_repo := fun w url => (on_repo url, S w);
     mkdirp := fun w p => (true, S w);
     path_join := posix_join;
     JSON_parse := parse_literal |}.

Definition ok : ExecResult := mkExecResult false EmptyString EmptyString.

Definition fails (diagnostic : string) : ExecResult :=
  mkExecResult true EmptyString diagnostic.

Definition every_command_succeeds (cwd command : string) : ExecResult := ok.

(** The one command [bad] fails with [diagnostic]; the others succeed. *)
Definition command_fails (bad diagnostic : string) (cwd command : string)
    : ExecResult :=
  if (command =? bad)%string then fails diagnostic else ok.

Definition options : Options :=
  mkOptions "secret" false false "u" "base".

Definition x : Repo :=
  mkRepo "x" "git@github.com:u/x.git" false "u" None None.

Definition z : Repo :=
  mkRepo "z" "git@github.com:other/z.git" false "other" None None.

Definition y : Repo :=
  mkRepo "y" "git@github.com:u/y.git" true "u" None None.

Definition y_parent : Repo :=
  mkRepo "y" "git@github.com:up/y.git" true "up" None None.

Definition y_source : Repo :=
  mkRepo "y" "git@github.com:root/y.git" false "root" None None.

Definition y_detail : Repo :=
  mkRepo "y" "git@github.com:u/y.git" true "u" (Some y_parent) (Some y_source).

(** A fork whose lineage record the forge does not find. *)
Definition lost : Repo :=
  mkRepo "lost" "git@github.com:u/lost.git" true "u" None None.

Definition forge_repo (url : string) : GotResult Repo :=
  if (url =? "https://api.github.com/repos/u/y")%string
  then GotResponse y_detail
  else GotHTTPError "Not Found".

Definition forge_repos (list : list Repo) (url : string)
    : GotResult (Datatypes.list Repo) :=
  GotResponse list.

Definition forge_down (url : string) : GotResult (Datatypes.list Repo) :=
  GotHTTPError "Not Found".

Definition start (P : Platform) (w : World P) : State P :=
  mkState P w (mkProgress 0 0).

(** Every command and every request succeeds. *)
Definition calm : Platform :=
  platform every_command_succeeds (forge_repos [x; y]) forge_repo.

(** The clone of [item] fails because the remote cannot be read. *)
Definition broken_clone (item : Repo) : Platform :=
  platform
    (command_fails ("git clone " ++ ssh_url item)
       "fatal: Could not read from remote repository.")
    (forge_repos [x; y]) forge_repo.

(** The clone of [item] fails because it was cloned before. *)
Definition existing_clone (item : Repo) : Platform :=
  platform
    (command_fails ("git clone " ++ ssh_url item)
       ("fatal: destination path '" ++ name item
          ++ "' already exists and is not an empty directory."))
    (forge_repos [x; y]) forge_repo.

(** The remote [upstream] of [y] was registered before. *)
Definition existing_remote : Platform :=
  platform
    (command_fails "git remote add upstream git@github.com:up/y.git"
       "fatal: remote upstream already exists.")
    (forge_repos [x; y]) forge_repo.

(** Registering the remote [upstream] of [y] fails. *)
Definition broken_remote : Platform :=
  platform
    (command_fails "git remote add upstream git@github.com:up/y.git"
       "fatal: not a git repository (or any of the parent directories): .git")
    (forge_repos [x; y]) forge_repo.

(** The forge answers the listing with 404. *)
Definition unknown_user : Platform :=
  platform every_command_succeeds forge_down forge_repo.

End Demo.

(** ** Reading traces and diagnostics *)

Lemma settled_triple {A S} (r : Settled A) (s : S) (t : list Event) :
  settled (r, s, t) = r.
Proof. reflexivity. Qed.

Lemma final_triple {A S} (r : Settled A) (s : S) (t : list Event) :
  final (r, s, t) = s.
Proof. reflexivity. Qed.

Lemma events_triple {A S} (r : Settled A) (s : S) (t : list Event) :
  events (r, s, t) = t.
Proof. reflexivity. Qed.

Lemma errors_app (t1 t2 : list Event) :
  errors (t1 ++ t2) = (errors t1 ++ errors t2)%list.
Proof. apply flat_map_app. Qed.

Lemma execs_app (t1 t2 : list Event) :
  execs (t1 ++ t2) = (execs t1 ++ execs t2)%list.
Proof. apply flat_map_app. Qed.

Lemma gots_app (t1 t2 : list Event) :
  gots (t1 ++ t2) = (gots t1 ++ gots t2)%list.
Proof. apply flat_map_app. Qed.

Lemma mkdirps_app (t1 t2 : list Event) :
  mkdirps (t1 ++ t2) = (mkdirps t1 ++ mkdirps t2)%list.
Proof. apply flat_map_app. Qed.

Lemma substring_0_append (needle post : string) :
  substring 0 (String.length needle) (needle ++ post) = needle.
Proof.
  induction needle as [|a needle IH]; simpl.
  - destruct post; reflexivity.
  - rewrite IH. reflexivity.
Qed.

Lemma substring_0_inv (needle : string) :
  forall haystack,
    substring 0 (String.length needle) haystack = needle ->
    exists post, haystack = needle ++ post.
Proof.
  induction needle as [|a needle IH]; intros haystack H.
  - exists haystack. reflexivity.
  - destruct haystack as [|c haystack]; simpl in H; [discriminate H|].
    injection H as -> H.
    destruct (IH _ H) as [post ->]. exists post. reflexivity.
Qed.

(** [Contains] is the usual notion: the text splits around the needle. *)
Lemma Contains_split (haystack needle : string) :
  Contains haystack needle <->
  exists pre post, haystack = pre ++ needle ++ post.
Proof.
  unfold Contains. split.
  - intros [m Hm]. revert haystack Hm.
    induction m as [|m IH]; intros haystack Hm.
    + destruct (substring_0_inv _ _ Hm) as [post ->].
      exists EmptyString, post. reflexivity.
    + destruct haystack as [|c haystack]; simpl in Hm.
      * subst needle. exists EmptyString, EmptyString. reflexivity.
      * destruct (IH _ Hm) as (pre & post & ->).
        exists (String c pre), post. reflexivity.
  - intros (pre & post & ->). exists (String.length pre).
    induction pre as [|c pre IH]; simpl.
    + apply substring_0_append.
    + exact IH.
Qed.

(** [indexOf] answers [INDEX_NOT_FOUND] exactly when the text is absent. *)
Lemma indexOf_not_found (haystack needle : string) :
  needle <> EmptyString ->
  (indexOf haystack needle =? INDEX_NOT_FOUND)%Z = true <->
  ~ Contains haystack needle.
Proof.
  intros Hne. unfold indexOf, INDEX_NOT_FOUND, Contains.
  destruct (index 0 needle haystack) as [m|] eqn:Hi.
  - split.
    + intros H. apply Z.eqb_eq in H. lia.
    + intros H. exfalso. apply H. exists m.
      eapply index_correct1. exact Hi.
  - split.
    + intros _ [m Hm]. revert Hm.
      apply (index_correct3 0 m needle haystack Hi Hne). lia.
    + intros _. reflexivity.
Qed.

(** The test both [cloneRepo] and [addRemote] make on the outcome of a
    command: it failed, and not in the tolerated way. *)
Lemma hard_failure_iff (r : ExecResult) (needle : string) :
  needle <> EmptyString ->
  failed r && (indexOf (stderr r) needle =? INDEX_NOT_FOUND)%Z = true <->
  failed r = true /\ ~ Contains (stderr r) needle.
Proof.
  intros Hne. rewrite andb_true_iff, (indexOf_not_found _ _ Hne). tauto.
Qed.

Lemma tolerated_iff (r : ExecResult) (needle : string) :
  needle <> EmptyString ->
  failed r && (indexOf (stderr r) needle =? INDEX_NOT_FOUND)%Z = false <->
  failed r = false \/ Contains (stderr r) needle.
Proof.
  intros Hne. unfold Contains.
  destruct (failed r); simpl.
  - split.
    + intros H. right.
      unfold indexOf, INDEX_NOT_FOUND in H.
      destruct (index 0 needle (stderr r)) as [m|] eqn:Hi.
      * exists m. eapply index_correct1. exact Hi.
      * discriminate H.
    + intros [H|H]; [discriminate H|].
      destruct (indexOf (stderr r) needle =? INDEX_NOT_FOUND)%Z eqn:E; auto.
      apply (indexOf_not_found _ _ Hne) in E. contradiction.
  - split; auto.
Qed.

Lemma prefix_append (p rest : string) : prefix p (p ++ rest) = true.
Proof.
  induction p as [|a p IH]; simpl.
  - destruct rest; reflexivity.
  - destruct (ascii_dec a a) as [_|H]; [exact IH|contradiction].
Qed.

Lemma prefix_cons (a : ascii) (p s : string) :
  prefix (String a p) s = true ->
  exists s', s = String a s' /\ prefix p s' = true.
Proof.
  destruct s as [|b s']; simpl; [discriminate|].
  destruct (ascii_dec a b) as [->|_]; [|discriminate].
  intros H. exists s'. split; [reflexivity|exact H].
Qed.

(** A [git remote add] command is not a [git clone] command. *)
Lemma remote_command_not_clone (command : string) :
  prefix "git remote add " command = true ->
  prefix "git clone " command = false.
Proof.
  intros H.
  do 5 (apply prefix_cons in H; destruct H as [? [-> H]]).
  reflexivity.
Qed.

Lemma link_events_mkdirps (forkPath : string) (t : list Event) :
  Forall (link_event forkPath) t -> mkdirps t = [].
Proof.
  induction 1 as [|ev t Hev _ IH]; [reflexivity|].
  destruct ev; simpl in *; try exact IH. contradiction.
Qed.

Lemma link_events_clone_attempts (forkPath : string) (t : list Event) :
  Forall (link_event forkPath) t -> clone_attempts t = [].
Proof.
  induction 1 as [|ev t Hev _ IH]; [reflexivity|].
  destruct ev; simpl in *; try exact IH.
  destruct Hev as [_ Hev].
  rewrite (remote_command_not_clone _ Hev). exact IH.
Qed.

Lemma link_events_execs (forkPath : string) (t : list Event) :
  Forall (link_event forkPath) t ->
  Forall (fun c => fst c = forkPath) (execs t).
Proof.
  induction 1 as [|ev t Hev _ IH]; [constructor|].
  destruct ev; simpl in *; try exact IH.
  constructor; [exact (proj1 Hev)|exact IH].
Qed.

Lemma clone_attempts_app (t1 t2 : list Event) :
  clone_attempts (t1 ++ t2) = (clone_attempts t1 ++ clone_attempts t2)%list.
Proof. apply flat_map_app. Qed.

Lemma clone_attempts_clone (item : Repo) (cwd : string) :
  clone_attempts [Exec cwd (clone_command item)] = [clone_command item].
Proof.
  unfold clone_attempts, clone_command. cbn [flat_map].
  rewrite prefix_append. reflexivity.
Qed.

Lemma remote_exists_not_empty (name : string) :
  remote_exists name <> EmptyString.
Proof. unfold remote_exists. simpl. discriminate. Qed.

Lemma CLONE_EXISTS_not_empty : CLONE_EXISTS <> EmptyString.
Proof. unfold CLONE_EXISTS. discriminate. Qed.

(** ** Laws of promise chains *)

Section Laws.

Variable P : Platform.

Lemma then_run {A B} (p : Promise P A) (f : A -> Promise P B) (s : State P) :
  then_ P p f s =
  match settled (p s) with
  | Fulfilled v =>
      (settled (f v (final (p s))), final (f v (final (p s))),
       (events (p s) ++ events (f v (final (p s))))%list)
  | Rejected e => (Rejected e, final (p s), events (p s))
  end.
Proof.
  unfold then_, settled, final, events.
  destruct (p s) as [[[v|e] s1] t1]; simpl; [|reflexivity].
  destruct (f v s1) as [[r s2] t2]; reflexivity.
Qed.

Lemma catch_run {A} (p : Promise P A) (h : JsError -> Promise P A) (s : State P) :
  catch_ P p h s =
  match settled (p s) with
  | Fulfilled v => (Fulfilled v, final (p s), events (p s))
  | Rejected e =>
      (settled (h e (final (p s))), final (h e (final (p s))),
       (events (p s) ++ events (h e (final (p s))))%list)
  end.
Proof.
  unfold catch_, settled, final, events.
  destruct (p s) as [[[v|e] s1] t1]; simpl; [reflexivity|].
  destruct (h e s1) as [[r s2] t2]; reflexivity.
Qed.

Lemma then_fulfilled {A B} (p : Promise P A) (f : A -> Promise P B)
    (s s1 : State P) (v : A) (t1 : list Event) :
  p s = (Fulfilled v, s1, t1) ->
  then_ P p f s =
  (settled (f v s1), final (f v s1), (t1 ++ events (f v s1))%list).
Proof. intros H. rewrite then_run, H. reflexivity. Qed.

Lemma then_rejected {A B} (p : Promise P A) (f : A -> Promise P B)
    (s s1 : State P) (e : JsError) (t1 : list Event) :
  p s = (Rejected e, s1, t1) ->
  then_ P p f s = (Rejected e, s1, t1).
Proof. intros H. rewrite then_run, H. reflexivity. Qed.

Lemma then_resolve {A B} (v : A) (f : A -> Promise P B) (s : State P) :
  then_ P (resolve P v) f s = f v s.
Proof.
  unfold then_, resolve. destruct (f v s) as [[r s2] t2]. reflexivity.
Qed.

Lemma then_assoc {A B C} (p : Promise P A) (f : A -> Promise P B)
    (g : B -> Promise P C) (s : State P) :
  then_ P (then_ P p f) g s = then_ P p (fun x => then_ P (f x) g) s.
Proof.
  unfold then_.
  destruct (p s) as [[[v|e] s1] t1]; [|reflexivity].
  destruct (f v s1) as [[[v'|e'] s2] t2]; [|reflexivity].
  destruct (g v' s2) as [[r s3] t3].
  rewrite app_assoc. reflexivity.
Qed.

Lemma then_ext {A B} (p : Promise P A) (f g : A -> Promise P B) (s : State P) :
  (forall v s', f v s' = g v s') ->
  then_ P p f s = then_ P p g s.
Proof.
  intros H. unfold then_.
  destruct (p s) as [[[v|e] s1] t1]; [|reflexivity].
  rewrite H. reflexivity.
Qed.

(** *** The batch as a plain recursion over the list *)

Lemma reduce_then_in_turn {A B} (fn : A -> Promise P B) (arr : list A) :
  forall (prev : Promise P unit) (s : State P),
    reduce_then P fn arr prev s = then_ P prev (fun _ => in_turn P fn arr) s.
Proof.
  induction arr as [|curr rest IH]; intros prev s; simpl.
  - unfold then_, resolve.
    destruct (prev s) as [[[[]|e] s1] t1]; [|reflexivity].
    rewrite app_nil_r. reflexivity.
  - rewrite IH, then_assoc.
    apply then_ext. intros _ s'.
    rewrite then_assoc.
    apply then_ext. intros _ s''.
    apply (then_resolve tt (fun _ => in_turn P fn rest)).
Qed.

Lemma each_run {A B} (fn : A -> Promise P B) (arr : list A) (s : State P) :
  each P fn arr s = then_ P (in_turn P fn arr) (fun _ => resolve P tt) s.
Proof.
  unfold each, then_.
  rewrite reduce_then_in_turn.
  rewrite (then_resolve tt (fun _ => in_turn P fn arr)). reflexivity.
Qed.

Lemma each_nil {A B} (fn : A -> Promise P B) (s : State P) :
  each P fn [] s = (Fulfilled tt, s, []).
Proof. reflexivity. Qed.

(** [each] settles as its first element does when that one rejects, and goes
    on with the rest from the state it left otherwise. *)
Lemma each_cons {A B} (fn : A -> Promise P B) (curr : A) (rest : list A)
    (s : State P) :
  each P fn (curr :: rest) s =
  match settled (fn curr s) with
  | Fulfilled _ =>
      match settled (each P fn rest (final (fn curr s))) with
      | Fulfilled _ =>
          (Fulfilled tt,
           final (each P fn rest (final (fn curr s))),
           (events (fn curr s)
              ++ events (each P fn rest (final (fn curr s))))%list)
      | Rejected e =>
          (Rejected e,
           final (each P fn rest (final (fn curr s))),
           (events (fn curr s)
              ++ events (each P fn rest (final (fn curr s))))%list)
      end
  | Rejected e => (Rejected e, final (fn curr s), events (fn curr s))
  end.
Proof.
  rewrite each_run, (each_run fn rest). simpl in_turn.
  rewrite then_assoc, then_run.
  destruct (settled (fn curr s)) as [v|e]; [|reflexivity].
  unfold then_, resolve, settled, final, events.
  destruct (in_turn P fn rest (snd (fst (fn curr s)))) as [[[[]|e] s1] t1];
    simpl; rewrite ?app_nil_r; reflexivity.
Qed.

(** Either every element fulfilled, or the batch rejects as its first
    rejecting element does and stops there. *)
Lemma each_settles {A B} (fn : A -> Promise P B) (arr : list A) :
  forall s : State P,
    (exists s' t, each P fn arr s = (Fulfilled tt, s', t)) \/
    (exists pre item post s1 t1 e,
       arr = (pre ++ item :: post)%list /\
       each P fn pre s = (Fulfilled tt, s1, t1) /\
       settled (fn item s1) = Rejected e /\
       each P fn arr s =
         (Rejected e, final (fn item s1), (t1 ++ events (fn item s1))%list)).
Proof.
  induction arr as [|curr rest IH]; intros s.
  - left. exists s, []. reflexivity.
  - destruct (settled (fn curr s)) as [v|e] eqn:Hcurr.
    + destruct (IH (final (fn curr s)))
        as [(s' & t & Hrest)
           |(pre & item & post & s1 & t1 & e & Harr & Hpre & Hitem & Hrest)].
      * left. rewrite each_cons, Hcurr, Hrest.
        unfold settled, final, events. cbn [fst snd].
        eexists. eexists. reflexivity.
      * right. exists (curr :: pre), item, post, s1,
          (events (fn curr s) ++ t1)%list, e.
        split; [rewrite Harr; reflexivity|].
        split; [|split; [exact Hitem|]].
        -- rewrite each_cons, Hcurr, Hpre. reflexivity.
        -- rewrite each_cons, Hcurr, Hrest.
           unfold settled, final, events. cbn [fst snd].
           rewrite app_assoc. reflexivity.
    + right. exists [], curr, rest, s, [], e.
      split; [reflexivity|]. split; [reflexivity|]. split; [exact Hcurr|].
      rewrite each_cons, Hcurr. reflexivity.
Qed.

(** The rejection of one element, after a prefix that fulfilled. *)
Lemma each_rejects_at {A B} (fn : A -> Promise P B) (pre : list A) :
  forall (item : A) (post : list A) (s s1 : State P) (t1 : list Event)
         (e : JsError),
    each P fn pre s = (Fulfilled tt, s1, t1) ->
    settled (fn item s1) = Rejected e ->
    each P fn (pre ++ item :: post) s =
      (Rejected e, final (fn item s1), (t1 ++ events (fn item s1))%list).
Proof.
  induction pre as [|curr pre IH]; intros item post s s1 t1 e Hpre Hitem.
  - rewrite each_nil in Hpre. injection Hpre as <- <-.
    simpl app. rewrite each_cons, Hitem. reflexivity.
  - rewrite each_cons in Hpre.
    destruct (settled (fn curr s)) as [v|e'] eqn:Hcurr; [|discriminate].
    destruct (each P fn pre (final (fn curr s))) as [[r s2] t2] eqn:Hrest.
    unfold settled, final, events in Hpre. cbn [fst snd] in Hpre.
    destruct r as [[]|e']; [|discriminate].
    injection Hpre as <- <-.
    simpl app. rewrite each_cons, Hcurr.
    rewrite (IH item post _ _ _ e Hrest Hitem).
    unfold settled, final, events. cbn [fst snd].
    rewrite app_assoc. reflexivity.
Qed.

(** A chain begins with the calls of its first promise. *)
Lemma then_events_prefix {A B} (p : Promise P A) (f : A -> Promise P B)
    (s : State P) :
  exists rest, events (then_ P p f s) = (events (p s) ++ rest)%list.
Proof.
  rewrite then_run. destruct (settled (p s)).
  - eexists. reflexivity.
  - exists []. unfold events at 1. simpl. rewrite app_nil_r. reflexivity.
Qed.

Lemma catch_events_prefix {A} (p : Promise P A) (h : JsError -> Promise P A)
    (s : State P) :
  exists rest, events (catch_ P p h s) = (events (p s) ++ rest)%list.
Proof.
  rewrite catch_run. destruct (settled (p s)).
  - exists []. unfold events at 1. simpl. rewrite app_nil_r. reflexivity.
  - eexists. reflexivity.
Qed.

Lemma call_got_repo_events (url : string) (s : State P) :
  events (call_got_repo P url s) = [Got url].
Proof.
  unfold call_got_repo, events.
  destruct (got_repo P (world s) url). reflexivity.
Qed.

(** *** Promises that leave the progress bar alone *)

Lemma steady_resolve {A} (Q : Event -> Prop) (v : A) : steady P Q (resolve P v).
Proof. intros s. split; [reflexivity|constructor]. Qed.

Lemma steady_throw {A} (Q : Event -> Prop) (e : JsError) :
  steady P Q (@throw P A e).
Proof. intros s. split; [reflexivity|constructor]. Qed.

Lemma steady_emit (Q : Event -> Prop) (ev : Event) :
  Q ev -> steady P Q (emit P ev).
Proof. intros H s. split; [reflexivity|]. repeat constructor. exact H. Qed.

Lemma steady_when (Q : Event -> Prop) (b : bool) (p : Promise P unit) :
  steady P Q p -> steady P Q (when P b p).
Proof. intros H. destruct b; [exact H|apply steady_resolve]. Qed.

Lemma steady_call_exec (Q : Event -> Prop) (cwd command : string) :
  Q (Exec cwd command) -> steady P Q (call_exec P cwd command).
Proof.
  intros H s. unfold call_exec, final, events.
  destruct (exec P (world s) cwd command) as [r w].
  split; [reflexivity|]. repeat constructor. exact H.
Qed.

Lemma steady_call_got_repo (Q : Event -> Prop) (url : string) :
  Q (Got url) -> steady P Q (call_got_repo P url).
Proof.
  intros H s. unfold call_got_repo, final, events.
  destruct (got_repo P (world s) url) as [r w].
  split; [reflexivity|]. repeat constructor. exact H.
Qed.

Lemma steady_then {A B} (Q : Event -> Prop) (p : Promise P A)
    (f : A -> Promise P B) :
  steady P Q p -> (forall v, steady P Q (f v)) -> steady P Q (then_ P p f).
Proof.
  intros Hp Hf s. rewrite then_run.
  destruct (Hp s) as [Hb Ht].
  destruct (settled (p s)) as [v|e].
  - destruct (Hf v (final (p s))) as [Hb' Ht'].
    split; [exact (eq_trans Hb' Hb)|].
    apply (proj2 (Forall_app _ _ _)). split; assumption.
  - split; assumption.
Qed.

Lemma steady_catch {A} (Q : Event -> Prop) (p : Promise P A)
    (h : JsError -> Promise P A) :
  steady P Q p -> (forall e, steady P Q (h e)) -> steady P Q (catch_ P p h).
Proof.
  intros Hp Hh s. rewrite catch_run.
  destruct (Hp s) as [Hb Ht].
  destruct (settled (p s)) as [v|e].
  - split; assumption.
  - destruct (Hh e (final (p s))) as [Hb' Ht'].
    split; [exact (eq_trans Hb' Hb)|].
    apply (proj2 (Forall_app _ _ _)). split; assumption.
Qed.

End Laws.

Section Properties.

Variable P : Platform.
Variable cfg : Options.

(** Facts that hold whether or not [--verbose] is set. *)
Ltac by_verbose :=
  unfold events, settled; simpl; destruct (verbose cfg); reflexivity.

(** *** What one call of [addRemote] does *)

Lemma addRemote_run (item : Repo) (forkPath name url : string) (s : State P) :
  addRemote P cfg item forkPath name url s =
  let command := remote_command name url in
  let r := fst (exec P (world s) forkPath command) in
  let s' := mkState P (snd (exec P (world s) forkPath command)) (progressBar s) in
  let log := if verbose cfg
             then [ConsoleLog (" Adding remote information, " ++ name
                                 ++ " ==>  " ++ url)]
             else [] in
  if failed r && (indexOf (stderr r) (remote_exists name) =? INDEX_NOT_FOUND)%Z
  then (Rejected (ExecError command (stderr r)), s',
        (log ++ [Exec forkPath command;
                 ConsoleError (" Adding remote " ++ dquote ++ name ++ dquote
                                 ++ " failed for " ++ url)])%list)
  else (Fulfilled item, s', (log ++ [Exec forkPath command])%list).
Proof.
  unfold addRemote, remote_command, remote_exists, then_, when, call_exec,
    console_log, console_error, emit, throw, resolve.
  cbv zeta.
  destruct (verbose cfg);
    destruct (exec P (world s) forkPath _) as [r w]; simpl;
    destruct (failed r && _); reflexivity.
Qed.

(** C7: a failed [git remote add] whose diagnostic contains
    [remote <name> already exists] fulfils with the item and reports no error;
    any other failure is reported and rejects the registration. *)
Theorem addRemote_tolerates_existing_remote
    (item : Repo) (forkPath name url : string) (s : State P) :
  let command := remote_command name url in
  let r := fst (exec P (world s) forkPath command) in
  let out := addRemote P cfg item forkPath name url s in
  execs (events out) = [(forkPath, command)] /\
  (failed r = true -> Contains (stderr r) (remote_exists name) ->
   settled out = Fulfilled item /\ errors (events out) = []) /\
  (failed r = true -> ~ Contains (stderr r) (remote_exists name) ->
   settled out = Rejected (ExecError command (stderr r)) /\
   errors (events out) =
     [" Adding remote " ++ dquote ++ name ++ dquote ++ " failed for " ++ url]) /\
  (failed r = false ->
   settled out = Fulfilled item /\ errors (events out) = []).
Proof.
  cbv zeta. rewrite addRemote_run. cbv zeta.
  destruct (failed _ && _) eqn:E.
  - apply (hard_failure_iff _ _ (remote_exists_not_empty name)) in E.
    destruct E as [Hf Hc].
    split; [by_verbose|split; [|split]].
    + intros _ Hc'. contradiction.
    + intros _ _. split; by_verbose.
    + intros Hf'. congruence.
  - apply (tolerated_iff _ _ (remote_exists_not_empty name)) in E.
    split; [by_verbose|split; [|split]].
    + intros _ _. split; by_verbose.
    + intros Hf Hc. destruct E as [E|E]; [congruence|contradiction].
    + intros _. split; by_verbose.
Qed.

(** C2: the directory a repository is filed under depends only on its fork
    flag and on whether its owner is the acting user: a fork goes to [fork]
    whoever owns it, otherwise the acting user's repository goes to [mine] and
    any other to [contributing]. *)
Theorem repoType_classifier (item : Repo) :
  repoType cfg item =
    pathFragment
      (classify (fork item) (owner_login item =? username cfg)%string) /\
  (fork item = true -> repoType cfg item = "fork") /\
  (fork item = false -> owner_login item = username cfg ->
   repoType cfg item = "mine") /\
  (fork item = false -> owner_login item <> username cfg ->
   repoType cfg item = "contributing") /\
  (forall (cfg' : Options) (item' : Repo),
     fork item' = fork item ->
     ((owner_login item' =? username cfg') =
      (owner_login item =? username cfg))%string ->
     repoType cfg' item' = repoType cfg item).
Proof.
  unfold repoType, classify.
  split; [|split; [|split; [|split]]].
  - destruct (fork item); [reflexivity|].
    destruct (owner_login item =? username cfg)%string; reflexivity.
  - intros ->. reflexivity.
  - intros -> ->. rewrite String.eqb_refl. reflexivity.
  - intros -> Hne. apply String.eqb_neq in Hne. rewrite Hne. reflexivity.
  - intros cfg' item' -> ->. reflexivity.
Qed.

(** *** Fork linking *)

(** C6: when the lineage record arrives with its parent and source,
    [getFork] runs [git remote add upstream <parent>] and then
    [git remote add original <source>], both in the clone; when the first
    registration fails other than by an existing remote, the second command
    is never run. *)
Theorem getFork_upstream_then_original
    (forkPath user repo : string) (s : State P) (item p o : Repo) :
  let url := GH_API_URL ++ "repos/" ++ user ++ "/" ++ repo in
  fst (got_repo P (world s) url) = GotResponse item ->
  parent item = Some p ->
  source item = Some o ->
  let w1 := snd (got_repo P (world s) url) in
  let first := remote_command "upstream" (ssh_url p) in
  let second := remote_command "original" (ssh_url o) in
  let r1 := fst (exec P w1 forkPath first) in
  let out := getFork P cfg forkPath user repo s in
  gots (events out) = [url] /\
  (failed r1 = false \/ Contains (stderr r1) (remote_exists "upstream") ->
   execs (events out) = [(forkPath, first); (forkPath, second)]) /\
  (failed r1 = true /\ ~ Contains (stderr r1) (remote_exists "upstream") ->
   execs (events out) = [(forkPath, first)]).
Proof.
  cbv zeta. intros Hgot Hp Ho.
  unfold getFork, catch_, then_, call_got_repo, when, console_log,
    console_error, emit, resolve, throw.
  destruct (got_repo P (world s) _) as [g w1] eqn:Eg.
  simpl in Hgot. subst g. cbn [settle_got fst snd].
  destruct (verbose cfg) eqn:Ev; cbv beta iota;
    rewrite Hp, addRemote_run; cbv zeta; cbn [world progressBar];
    rewrite Ev;
    (destruct (failed _ && _) eqn:E1;
     [ apply (hard_failure_iff _ _ (remote_exists_not_empty _)) in E1;
       destruct E1 as [Hf Hc];
       split; [reflexivity|split];
       [ intros [H|H]; [congruence|contradiction]
       | intros _; reflexivity ]
     | apply (tolerated_iff _ _ (remote_exists_not_empty _)) in E1;
       cbv beta iota;
       rewrite Ho, addRemote_run; cbv zeta; cbn [world progressBar];
       rewrite Ev;
       destruct (failed _ && _) eqn:E2;
       (split; [reflexivity|split];
        [ intros _; reflexivity
        | intros [Hf Hc]; destruct E1 as [E1|E1];
          [congruence|contradiction] ]) ]).
Qed.


Lemma addRemote_steady (item : Repo) (forkPath name url : string) :
  steady P (link_event forkPath) (addRemote P cfg item forkPath name url).
Proof.
  unfold addRemote.
  apply steady_then; [apply steady_when, steady_emit; exact I|intros _].
  apply steady_then.
  - apply steady_call_exec. split; [reflexivity|apply prefix_append].
  - intros r. destruct (failed r && _); [|apply steady_resolve].
    apply steady_then; [apply steady_emit; exact I|intros _].
    apply steady_throw.
Qed.

(** Fork linking never ticks the progress bar, never makes a directory, and
    runs nothing but [git remote add] in the clone. *)
Lemma getFork_steady (forkPath user repo : string) :
  steady P (link_event forkPath) (getFork P cfg forkPath user repo).
Proof.
  unfold getFork.
  apply steady_catch.
  - apply steady_then.
    + apply steady_then; [apply steady_call_got_repo; exact I|intros body].
      apply steady_then; [apply steady_when, steady_emit; exact I|intros _].
      apply steady_resolve.
    + intros item. apply steady_then.
      * destruct (parent item); [apply addRemote_steady|apply steady_throw].
      * intros item'. apply steady_then; [|intros; apply steady_resolve].
        destruct (source item'); [apply addRemote_steady|apply steady_throw].
  - intros e.
    apply steady_then; [apply steady_emit; exact I|intros _].
    destruct (response e); [|apply steady_throw].
    apply steady_then; [apply steady_emit; exact I|intros _].
    apply steady_resolve.
Qed.

(** The first thing fork linking does is fetch the lineage record. *)
Lemma getFork_fetches_first (forkPath user repo : string) (s : State P) :
  exists rest,
    events (getFork P cfg forkPath user repo s) =
    Got (GH_API_URL ++ "repos/" ++ user ++ "/" ++ repo) :: rest.
Proof.
  unfold getFork.
  match goal with
  | |- context [events (catch_ P ?p ?h s)] =>
      destruct (catch_events_prefix P p h s) as [r1 ->]
  end.
  match goal with
  | |- context [events (then_ P ?p ?f s)] =>
      destruct (then_events_prefix P p f s) as [r2 ->]
  end.
  match goal with
  | |- context [events (then_ P ?p ?f s)] =>
      destruct (then_events_prefix P p f s) as [r3 ->]
  end.
  rewrite call_got_repo_events. eexists. reflexivity.
Qed.

(** A lineage fetch the forge answers with an HTTP error is reported and
    swallowed: [getFork] fulfils with [undefined] and registers nothing. *)
Lemma getFork_http_error (forkPath user repo : string) (s : State P)
    (body : string) :
  let url := GH_API_URL ++ "repos/" ++ user ++ "/" ++ repo in
  fst (got_repo P (world s) url) = GotHTTPError body ->
  getFork P cfg forkPath user repo s =
  (Fulfilled None, mkState P (snd (got_repo P (world s) url)) (progressBar s),
   [Got url; ConsoleError " Getting fork details failed."; ConsoleError body]).
Proof.
  cbv zeta. intros Hgot.
  unfold getFork, catch_, then_, call_got_repo, console_error, emit, resolve.
  destruct (got_repo P (world s) _) as [g w1]. simpl in Hgot. subst g.
  reflexivity.
Qed.

(** *** What one call of [cloneRepo] does *)

Lemma cloneRepo_run (item : Repo) (s : State P) :
  cloneRepo P cfg item s =
  let target := clonePath P cfg item in
  let made := mkdirp P (world s) target in
  let cloned := exec P (snd made) target (clone_command item) in
  let log := if verbose cfg
             then [ConsoleLog ("Cloning repository " ++ ssh_url item)]
             else [] in
  if fst made then
    if failed (fst cloned) &&
       (indexOf (stderr (fst cloned)) CLONE_EXISTS =? INDEX_NOT_FOUND)%Z
    then
      (Rejected (ExecError (clone_command item) (stderr (fst cloned))),
       mkState P (snd cloned) (ticked 1 (progressBar s)),
       (Mkdirp target :: log
          ++ [Exec target (clone_command item);
              ConsoleError (" Cloning failed for " ++ ssh_url item)])%list)
    else if fork item then
      let linked :=
        getFork P cfg (path_join P [target; name item]) (owner_login item)
          (name item) (mkState P (snd cloned) (ticked 2 (progressBar s))) in
      (settled linked, final linked,
       (Mkdirp target :: log
          ++ Exec target (clone_command item) :: events linked)%list)
    else
      (Fulfilled (Some item),
       mkState P (snd cloned) (ticked 2 (progressBar s)),
       (Mkdirp target :: log ++ [Exec target (clone_command item)])%list)
  else
    (Rejected (FsError target), mkState P (snd made) (progressBar s),
     [Mkdirp target]).
Proof.
  cbv zeta.
  unfold cloneRepo, execClone, afterClone, call_mkdirp, call_exec, tick,
    render, when, console_log, console_error, emit, throw, resolve,
    clone_command, CLONE_EXISTS, ticked, settled, final, events.
  unfold then_ at 1.
  destruct (mkdirp P (world s) (clonePath P cfg item)) as [[|] w1];
    cbn [fst snd]; [|reflexivity].
  unfold then_.
  replace (curr (progressBar s) + 2) with (curr (progressBar s) + 1 + 1) by lia.
  destruct (verbose cfg); cbn [world progressBar fst snd];
    destruct (exec P w1 _ _) as [r w2]; cbn [world progressBar fst snd total curr];
    (destruct (failed r && _); [reflexivity|]);
    (destruct (fork item); [|reflexivity]);
    cbn [world progressBar total curr];
    destruct (getFork _ _ _ _ _ _) as [[r3 s3] t3]; reflexivity.
Qed.



(** C8: the clone runs in [base/category] when the username is omitted and
    in [base/username/category] otherwise ([/] being [path.join]); that
    directory is ensured with [mkdirp] before anything else happens, and what
    is run after the clone runs in the directory [name] below it. *)
Theorem cloneRepo_target_layout (item : Repo) (s : State P) :
  let base := cloneBaseDir cfg in
  let category := repoType cfg item in
  let target := if omitUsername cfg
                then path_join P [base; category]
                else path_join P [base; username cfg; category] in
  let made := mkdirp P (world s) target in
  let out := cloneRepo P cfg item s in
  (exists rest, events out = Mkdirp target :: rest /\ mkdirps rest = []) /\
  (fst made = true ->
   exists linking,
     execs (events out) = (target, clone_command item) :: linking /\
     Forall (fun c => fst c = path_join P [target; name item]) linking) /\
  (fst made = false -> execs (events out) = []).
Proof.
  cbv zeta. rewrite cloneRepo_run. cbv zeta.
  fold (clonePath P cfg item).
  set (target := clonePath P cfg item).
  set (log := if verbose cfg
              then [ConsoleLog ("Cloning repository " ++ ssh_url item)]
              else []).
  assert (Hlog : mkdirps log = [] /\ execs log = [])
    by (unfold log; destruct (verbose cfg); split; reflexivity).
  destruct Hlog as [Hlm Hle].
  destruct (fst (mkdirp P (world s) target)).
  - destruct (failed _ && _); [|destruct (fork item)].
    + split; [|split; [|discriminate]].
      * eexists. split; [reflexivity|].
        rewrite mkdirps_app, Hlm. reflexivity.
      * intros _. exists []. split; [|constructor].
        unfold events. cbn [snd execs flat_map].
        change (execs (log ++ [Exec target (clone_command item);
                  ConsoleError (" Cloning failed for " ++ ssh_url item)]) =
                [(target, clone_command item)]).
        rewrite execs_app, Hle. reflexivity.
    + set (linked := getFork P cfg _ _ _ _).
      destruct (getFork_steady (path_join P [target; name item])
                  (owner_login item) (name item)
                  (mkState P
                     (snd (exec P (snd (mkdirp P (world s) target)) target
                             (clone_command item)))
                     (ticked 2 (progressBar s)))) as [_ Hlink].
      fold linked in Hlink.
      split; [|split; [|discriminate]].
      * eexists. split; [reflexivity|].
        rewrite mkdirps_app, Hlm. cbn [app].
        change (mkdirps (Exec target (clone_command item) :: events linked))
          with (mkdirps (events linked)).
        apply (link_events_mkdirps _ _ Hlink).
      * intros _. exists (execs (events linked)). split.
        -- unfold events at 1. cbn [snd].
           change (execs (log ++ Exec target (clone_command item)
                            :: events linked) =
                   (target, clone_command item) :: execs (events linked)).
           rewrite execs_app, Hle. reflexivity.
        -- apply (link_events_execs _ _ Hlink).
    + split; [|split; [|discriminate]].
      * eexists. split; [reflexivity|].
        rewrite mkdirps_app, Hlm. reflexivity.
      * intros _. exists []. split; [|constructor].
        unfold events. cbn [snd].
        change (execs (log ++ [Exec target (clone_command item)]) =
                [(target, clone_command item)]).
        rewrite execs_app, Hle. reflexivity.
  - split; [|split; [discriminate|]].
    + eexists. split; reflexivity.
    + intros _. reflexivity.
Qed.

(** *** The two ways a clone can fail *)

Lemma execClone_run (item : Repo) (s : State P) :
  execClone P cfg item s =
  let target := clonePath P cfg item in
  let cloned := exec P (world s) target (clone_command item) in
  if failed (fst cloned) &&
     (indexOf (stderr (fst cloned)) CLONE_EXISTS =? INDEX_NOT_FOUND)%Z
  then
    (Rejected (ExecError (clone_command item) (stderr (fst cloned))),
     mkState P (snd cloned) (ticked 1 (progressBar s)),
     [Exec target (clone_command item);
      ConsoleError (" Cloning failed for " ++ ssh_url item)])
  else
    (Fulfilled item, mkState P (snd cloned) (ticked 1 (progressBar s)),
     [Exec target (clone_command item)]).
Proof.
  cbv zeta.
  unfold execClone, then_, call_exec, tick, render, console_error, emit,
    throw, resolve, clone_command, CLONE_EXISTS, ticked.
  destruct (exec P (world s) _ _) as [r w]. cbn [fst snd world progressBar].
  destruct (failed r && _); reflexivity.
Qed.

(** C4: a clone that fails because the directory already exists and is not
    empty counts as cloned: the promise around [git clone] fulfils with the
    item and reports nothing, a repository that is not a fork is passed on
    without any error, and for a fork the chain goes on into [getFork],
    which fetches the lineage record. *)
Theorem cloneRepo_tolerates_existing_clone (item : Repo) (s : State P) :
  let target := clonePath P cfg item in
  let made := mkdirp P (world s) target in
  let cloned := exec P (snd made) target (clone_command item) in
  fst made = true ->
  failed (fst cloned) = true ->
  Contains (stderr (fst cloned)) CLONE_EXISTS ->
  let out := cloneRepo P cfg item s in
  let linked :=
    getFork P cfg (path_join P [target; name item]) (owner_login item)
      (name item) (mkState P (snd cloned) (ticked 2 (progressBar s))) in
  execClone P cfg item (mkState P (snd made) (progressBar s)) =
    (Fulfilled item, mkState P (snd cloned) (ticked 1 (progressBar s)),
     [Exec target (clone_command item)]) /\
  (fork item = false ->
   settled out = Fulfilled (Some item) /\ errors (events out) = []) /\
  (fork item = true ->
   settled out = settled linked /\
   final out = final linked /\
   exists before rest,
     events out = (before ++ events linked)%list /\
     errors before = [] /\
     events linked =
       Got (GH_API_URL ++ "repos/" ++ owner_login item ++ "/" ++ name item)
       :: rest).
Proof.
  cbv zeta. intros Hmade Hfailed Hexists.
  assert (Htol :
    failed (fst (exec P (snd (mkdirp P (world s) (clonePath P cfg item)))
                   (clonePath P cfg item) (clone_command item))) &&
    (indexOf
       (stderr (fst (exec P (snd (mkdirp P (world s) (clonePath P cfg item)))
                       (clonePath P cfg item) (clone_command item))))
       CLONE_EXISTS =? INDEX_NOT_FOUND)%Z = false).
  { apply (tolerated_iff _ _ CLONE_EXISTS_not_empty). right. exact Hexists. }
  split; [|split].
  - rewrite execClone_run. cbv zeta. cbn [world progressBar].
    rewrite Htol. reflexivity.
  - intros Hfork. rewrite cloneRepo_run. cbv zeta.
    rewrite Hmade, Htol, Hfork.
    split; [reflexivity|].
    unfold events. cbn [snd].
    change (errors (Mkdirp (clonePath P cfg item)
              :: (if verbose cfg
                  then [ConsoleLog ("Cloning repository " ++ ssh_url item)]
                  else [])
              ++ [Exec (clonePath P cfg item) (clone_command item)]) = []).
    destruct (verbose cfg); reflexivity.
  - intros Hfork. rewrite cloneRepo_run. cbv zeta.
    rewrite Hmade, Htol, Hfork.
    split; [reflexivity|split; [reflexivity|]].
    destruct (getFork_fetches_first
                (path_join P [clonePath P cfg item; name item])
                (owner_login item) (name item)
                (mkState P
                   (snd (exec P (snd (mkdirp P (world s) (clonePath P cfg item)))
                           (clonePath P cfg item) (clone_command item)))
                   (ticked 2 (progressBar s)))) as [rest Hrest].
    exists (Mkdirp (clonePath P cfg item)
              :: (if verbose cfg
                  then [ConsoleLog ("Cloning repository " ++ ssh_url item)]
                  else [])
              ++ [Exec (clonePath P cfg item) (clone_command item)])%list, rest.
    split; [|split; [|exact Hrest]].
    + unfold events at 1. cbn [snd].
      rewrite <- app_comm_cons, <- app_assoc. reflexivity.
    + destruct (verbose cfg); reflexivity.
Qed.

(** What a clone that fails in any other way leaves behind. *)
Lemma cloneRepo_hard_failure (item : Repo) (s : State P) :
  let target := clonePath P cfg item in
  let made := mkdirp P (world s) target in
  let cloned := exec P (snd made) target (clone_command item) in
  fst made = true ->
  failed (fst cloned) = true ->
  ~ Contains (stderr (fst cloned)) CLONE_EXISTS ->
  cloneRepo P cfg item s =
  (Rejected (ExecError (clone_command item) (stderr (fst cloned))),
   mkState P (snd cloned) (ticked 1 (progressBar s)),
   (Mkdirp target
      :: (if verbose cfg
          then [ConsoleLog ("Cloning repository " ++ ssh_url item)]
          else [])
      ++ [Exec target (clone_command item);
          ConsoleError (" Cloning failed for " ++ ssh_url item)])%list).
Proof.
  cbv zeta. intros Hmade Hfailed Habsent.
  rewrite cloneRepo_run. cbv zeta. rewrite Hmade.
  rewrite (proj2 (hard_failure_iff _ _ CLONE_EXISTS_not_empty)
             (conj Hfailed Habsent)).
  reflexivity.
Qed.

(** C9 as the code has it: a clone that fails other than by an existing
    directory is reported, rejects the promise of its item with the error of
    the command, and is followed by no lineage fetch and no
    [git remote add]; the rejection also ends the batch, whatever items
    come after. *)
Theorem cloneRepo_failure_skips_linking
    (item : Repo) (rest : list Repo) (s : State P) :
  let target := clonePath P cfg item in
  let made := mkdirp P (world s) target in
  let cloned := exec P (snd made) target (clone_command item) in
  fst made = true ->
  failed (fst cloned) = true ->
  ~ Contains (stderr (fst cloned)) CLONE_EXISTS ->
  let out := cloneRepo P cfg item s in
  settled out =
    Rejected (ExecError (clone_command item) (stderr (fst cloned))) /\
  errors (events out) = [" Cloning failed for " ++ ssh_url item] /\
  gots (events out) = [] /\
  execs (events out) = [(target, clone_command item)] /\
  each P (cloneRepo P cfg) (item :: rest) s =
    (Rejected (ExecError (clone_command item) (stderr (fst cloned))),
     final out, events out).
Proof.
  cbv zeta. intros Hmade Hfailed Habsent.
  rewrite each_cons.
  rewrite (cloneRepo_hard_failure item s Hmade Hfailed Habsent).
  unfold settled, final, events. cbn [fst snd].
  repeat split; destruct (verbose cfg); reflexivity.
Qed.

(** *** The batch *)

Lemma handleRepos_run (list : list Repo) (s : State P) :
  handleRepos P cfg (Some list) s =
  each P (cloneRepo P cfg) list
    (mkState P (world s) (mkProgress (length list * 2) 0)).
Proof.
  unfold handleRepos, then_ at 1, new_Progress.
  destruct (each P _ _ _) as [[r s2] t2]. reflexivity.
Qed.

Lemma ticked_0 (b : Progress) : ticked 0 b = b.
Proof. destruct b. unfold ticked. simpl. rewrite Nat.add_0_r. reflexivity. Qed.

Lemma ticked_ticked (m n : nat) (b : Progress) :
  ticked n (ticked m b) = ticked (m + n) b.
Proof. unfold ticked. simpl. rewrite Nat.add_assoc. reflexivity. Qed.

(** One item ticks at most twice, and twice when its promise fulfils. *)
Lemma cloneRepo_ticks (item : Repo) (s : State P) :
  exists k,
    k <= 2 /\
    progressBar (final (cloneRepo P cfg item s)) = ticked k (progressBar s) /\
    (forall v, settled (cloneRepo P cfg item s) = Fulfilled v -> k = 2).
Proof.
  rewrite cloneRepo_run. cbv zeta.
  destruct (fst (mkdirp P (world s) (clonePath P cfg item))).
  - destruct (failed _ && _); [|destruct (fork item)].
    + exists 1. split; [lia|]. split; [reflexivity|]. discriminate.
    + exists 2. split; [lia|]. split; [|reflexivity].
      unfold final at 1. cbn [fst snd].
      rewrite (proj1 (getFork_steady _ _ _ _)). reflexivity.
    + exists 2. split; [lia|]. split; reflexivity.
  - exists 0. split; [lia|]. split; [|discriminate].
    unfold final. cbn [fst snd progressBar]. rewrite ticked_0. reflexivity.
Qed.

Lemma each_ticks (list : list Repo) :
  forall s : State P,
  exists k,
    k <= length list * 2 /\
    progressBar (final (each P (cloneRepo P cfg) list s)) =
      ticked k (progressBar s) /\
    (forall v, settled (each P (cloneRepo P cfg) list s) = Fulfilled v ->
               k = length list * 2).
Proof.
  induction list as [|item rest IH]; intros s.
  - exists 0. rewrite each_nil. split; [simpl; lia|].
    split; [|reflexivity].
    unfold final. cbn [fst snd]. rewrite ticked_0. reflexivity.
  - rewrite each_cons.
    destruct (cloneRepo_ticks item s) as (k1 & Hk1 & Hb1 & Hf1).
    destruct (settled (cloneRepo P cfg item s)) as [v|e] eqn:Hitem.
    + destruct (IH (final (cloneRepo P cfg item s))) as (k2 & Hk2 & Hb2 & Hf2).
      exists (k1 + k2).
      assert (Hb : progressBar (final (each P (cloneRepo P cfg) rest
                                  (final (cloneRepo P cfg item s)))) =
                   ticked (k1 + k2) (progressBar s))
        by (rewrite Hb2, Hb1; apply ticked_ticked).
      destruct (settled (each P (cloneRepo P cfg) rest _)) as [v'|e'] eqn:Hrest.
      * split; [simpl; lia|]. split; [exact Hb|].
        intros _ _. rewrite (Hf1 v eq_refl), (Hf2 v' eq_refl). simpl. lia.
      * split; [simpl; lia|]. split; [exact Hb|]. discriminate.
    + exists k1. split; [simpl; lia|]. split; [exact Hb1|]. discriminate.
Qed.

(** C3 as the code has it: the bar is created with total [2 * N]; an item
    whose clone succeeded or met an existing directory ticks twice, whether
    or not fork linking ran or worked, so a batch that fulfils has ticked
    [2 * N] times; an item whose clone failed otherwise ticks once only. *)
Theorem handleRepos_progress (list : list Repo) (s : State P) :
  let out := handleRepos P cfg (Some list) s in
  total (progressBar (final out)) = length list * 2 /\
  curr (progressBar (final out)) <= length list * 2 /\
  (forall v, settled out = Fulfilled v ->
             curr (progressBar (final out)) = length list * 2) /\
  (forall (item : Repo) (s1 : State P),
     let target := clonePath P cfg item in
     let made := mkdirp P (world s1) target in
     let cloned := exec P (snd made) target (clone_command item) in
     let after := progressBar (final (cloneRepo P cfg item s1)) in
     fst made = true ->
     (failed (fst cloned) = false \/
      Contains (stderr (fst cloned)) CLONE_EXISTS ->
      after = ticked 2 (progressBar s1)) /\
     (failed (fst cloned) = true /\
      ~ Contains (stderr (fst cloned)) CLONE_EXISTS ->
      after = ticked 1 (progressBar s1))).
Proof.
  cbv zeta. rewrite handleRepos_run.
  destruct (each_ticks list
              (mkState P (world s) (mkProgress (length list * 2) 0)))
    as (k & Hk & Hb & Hf).
  rewrite Hb. cbn [progressBar ticked total curr].
  split; [reflexivity|]. split; [simpl; lia|]. split.
  - intros v Hv. rewrite (Hf v Hv). reflexivity.
  - intros item s1 Hmade. rewrite cloneRepo_run. cbv zeta. rewrite Hmade.
    split.
    + intros Htol.
      rewrite (proj2 (tolerated_iff _ _ CLONE_EXISTS_not_empty) Htol).
      destruct (fork item); [|reflexivity].
      unfold final at 1. cbn [fst snd].
      rewrite (proj1 (getFork_steady _ _ _ _)). reflexivity.
    + intros Hhard.
      rewrite (proj2 (hard_failure_iff _ _ CLONE_EXISTS_not_empty) Hhard).
      reflexivity.
Qed.

(** An item whose promise fulfils has run its [git clone], once. *)
Lemma cloneRepo_fulfilled_attempt (item : Repo) (s : State P) (v : option Repo) :
  settled (cloneRepo P cfg item s) = Fulfilled v ->
  clone_attempts (events (cloneRepo P cfg item s)) = [clone_command item].
Proof.
  rewrite cloneRepo_run. cbv zeta.
  assert (Hlog : clone_attempts
                   (if verbose cfg
                    then [ConsoleLog ("Cloning repository " ++ ssh_url item)]
                    else []) = [])
    by (destruct (verbose cfg); reflexivity).
  destruct (fst (mkdirp P (world s) (clonePath P cfg item))); [|discriminate].
  destruct (failed _ && _); [discriminate|].
  destruct (fork item); intros _; unfold events at 1; cbn [snd].
  - change (Mkdirp ?d :: ?l ++ ?c :: ?t)%list
      with ([Mkdirp d] ++ l ++ [c] ++ t)%list.
    rewrite !clone_attempts_app, Hlog, clone_attempts_clone.
    rewrite (link_events_clone_attempts _ _
               (proj2 (getFork_steady _ _ _ _))).
    reflexivity.
  - change (Mkdirp ?d :: ?l ++ [?c])%list with ([Mkdirp d] ++ l ++ [c])%list.
    rewrite !clone_attempts_app, Hlog, clone_attempts_clone. reflexivity.
Qed.

Lemma each_fulfilled_attempts (list : list Repo) :
  forall (s : State P) (v : unit),
    settled (each P (cloneRepo P cfg) list s) = Fulfilled v ->
    v = tt /\
    clone_attempts (events (each P (cloneRepo P cfg) list s)) =
      map clone_command list.
Proof.
  induction list as [|item rest IH]; intros s v.
  - rewrite each_nil. destruct v. intros _. split; reflexivity.
  - rewrite each_cons.
    destruct (settled (cloneRepo P cfg item s)) as [v1|e] eqn:Hitem;
      [|discriminate].
    destruct (settled (each P (cloneRepo P cfg) rest _)) as [v2|e] eqn:Hrest;
      [|discriminate].
    rewrite settled_triple, events_triple.
    destruct v. intros _. split; [reflexivity|].
    rewrite clone_attempts_app, (cloneRepo_fulfilled_attempt _ _ _ Hitem).
    rewrite (proj2 (IH _ _ Hrest)). reflexivity.
Qed.

(** C1 as the code has it: the batch takes the items one at a time in list
    order.  It fulfils only once [git clone] has been run for every item;
    otherwise it rejects with the error of the first item whose
    promise rejects, right after that item, and the items behind it are
    never visited.  A clone that fails other than by an existing directory
    is such a rejection. *)
Theorem handleRepos_settles (list : list Repo) (s : State P) :
  let s0 := mkState P (world s) (mkProgress (length list * 2) 0) in
  let out := handleRepos P cfg (Some list) s in
  ((settled out = Fulfilled tt /\
    clone_attempts (events out) = map clone_command list) \/
   (exists pre item post s1 t1 e,
      list = (pre ++ item :: post)%list /\
      each P (cloneRepo P cfg) pre s0 = (Fulfilled tt, s1, t1) /\
      settled (cloneRepo P cfg item s1) = Rejected e /\
      out = (Rejected e, final (cloneRepo P cfg item s1),
             (t1 ++ events (cloneRepo P cfg item s1))%list))) /\
  (forall pre item post s1 t1,
     let target := clonePath P cfg item in
     let made := mkdirp P (world s1) target in
     let cloned := exec P (snd made) target (clone_command item) in
     list = (pre ++ item :: post)%list ->
     each P (cloneRepo P cfg) pre s0 = (Fulfilled tt, s1, t1) ->
     fst made = true ->
     failed (fst cloned) = true ->
     ~ Contains (stderr (fst cloned)) CLONE_EXISTS ->
     settled out =
       Rejected (ExecError (clone_command item) (stderr (fst cloned))) /\
     events out = (t1 ++ events (cloneRepo P cfg item s1))%list /\
     clone_attempts (events out) = map clone_command (pre ++ [item])) /\
  (forall item s1 body,
     let target := clonePath P cfg item in
     let made := mkdirp P (world s1) target in
     let cloned := exec P (snd made) target (clone_command item) in
     fork item = true ->
     fst made = true ->
     failed (fst cloned) = false \/
     Contains (stderr (fst cloned)) CLONE_EXISTS ->
     fst (got_repo P (snd cloned)
            (GH_API_URL ++ "repos/" ++ owner_login item ++ "/" ++ name item)) =
       GotHTTPError body ->
     settled (cloneRepo P cfg item s1) = Fulfilled None /\
     errors (events (cloneRepo P cfg item s1)) =
       [" Getting fork details failed."; body] /\
     execs (events (cloneRepo P cfg item s1)) = [(target, clone_command item)]).
Proof.
  cbv zeta. rewrite handleRepos_run. split; [|split].
  - destruct (each_settles P (cloneRepo P cfg) list
                (mkState P (world s) (mkProgress (length list * 2) 0)))
      as [(s' & t & H)|H].
    + left. split; [rewrite H; reflexivity|].
      apply (each_fulfilled_attempts list _ tt). rewrite H. reflexivity.
    + right. exact H.
  - intros pre item post s1 t1 Hlist Hpre Hmade Hfailed Habsent.
    pose proof (cloneRepo_hard_failure item s1 Hmade Hfailed Habsent) as Hitem.
    assert (Hrej : settled (cloneRepo P cfg item s1) =
                   Rejected (ExecError (clone_command item)
                     (stderr (fst (exec P
                        (snd (mkdirp P (world s1) (clonePath P cfg item)))
                        (clonePath P cfg item) (clone_command item))))))
      by (rewrite Hitem; reflexivity).
    subst list.
    rewrite (each_rejects_at P (cloneRepo P cfg) pre item post _ _ _ _
               Hpre Hrej).
    split; [reflexivity|]. split; [reflexivity|].
    rewrite events_triple.
    rewrite clone_attempts_app, map_app.
    f_equal.
    + assert (Hs : settled (each P (cloneRepo P cfg) pre
                     (mkState P (world s)
                        (mkProgress (length (pre ++ item :: post) * 2) 0))) =
                   Fulfilled tt)
        by (rewrite Hpre; reflexivity).
      pose proof (proj2 (each_fulfilled_attempts pre _ _ Hs)) as H.
      rewrite Hpre in H. exact H.
    + rewrite Hitem. unfold events. cbn [snd].
      change (Mkdirp ?d :: ?l ++ [?c; ?x])%list
        with ([Mkdirp d] ++ l ++ [c] ++ [x])%list.
      rewrite !clone_attempts_app, clone_attempts_clone.
      destruct (verbose cfg); reflexivity.
  - intros item s1 body Hfork Hmade Htol Hgot.
    rewrite cloneRepo_run. cbv zeta.
    rewrite Hmade, (proj2 (tolerated_iff _ _ CLONE_EXISTS_not_empty) Htol),
      Hfork.
    rewrite (getFork_http_error
               (path_join P [clonePath P cfg item; name item])
               (owner_login item) (name item)
               (mkState P
                  (snd (exec P (snd (mkdirp P (world s1) (clonePath P cfg item)))
                          (clonePath P cfg item) (clone_command item)))
                  (ticked 2 (progressBar s1)))
               body Hgot).
    rewrite settled_triple, events_triple.
    split; [reflexivity|].
    split; destruct (verbose cfg); reflexivity.
Qed.

(** *** Listing and parsing *)

(** When the forge answers the listing with an HTTP error, [getRepos]
    reports it and fulfils with [undefined]. *)
Lemma getRepos_http_error (s : State P) (body : string) :
  fst (got_repos P (world s)
         (GH_API_URL ++ "users/" ++ username cfg
            ++ "/repos?type=all&per_page=100")) = GotHTTPError body ->
  settled (getRepos P cfg s) = Fulfilled None /\
  errors (events (getRepos P cfg s)) =
    [" Fetching repository list failed."; body].
Proof.
  intros Hgot.
  unfold getRepos, catch_, then_, call_got_repos, when, console_log,
    console_error, emit, resolve, throw.
  destruct (verbose cfg); cbv beta iota;
    destruct (got_repos P (world s) _) as [g w]; simpl in Hgot; subst g;
    split; reflexivity.
Qed.

(** [handleRepos(undefined)] throws on [list.length]. *)
Lemma handleRepos_undefined (s : State P) :
  handleRepos P cfg None s =
  (Rejected (TypeError "Cannot read property 'length' of undefined"), s, []).
Proof. reflexivity. Qed.

(** When the listing fails without a response, the handler of [getRepos]
    throws itself on [error.response.body]. *)
Lemma getRepos_request_error (s : State P) (code : string) :
  fst (got_repos P (world s)
         (GH_API_URL ++ "users/" ++ username cfg
            ++ "/repos?type=all&per_page=100")) = GotRequestError code ->
  settled (getRepos P cfg s) =
    Rejected (TypeError "Cannot read property 'body' of undefined").
Proof.
  intros Hgot.
  unfold getRepos, catch_, then_, call_got_repos, when, console_log,
    console_error, emit, resolve, throw.
  destruct (verbose cfg); cbv beta iota;
    destruct (got_repos P (world s) _) as [g w]; simpl in Hgot; subst g;
    reflexivity.
Qed.

(** After a listing the forge answered with an HTTP error, [run] rejects on
    [list.length] and never prints its last line. *)
Lemma run_after_failed_listing (s : State P) (body : string) :
  let made := mkdirp P (world s) (cloneBaseDir cfg) in
  fst made = true ->
  fst (got_repos P (snd made)
         (GH_API_URL ++ "users/" ++ username cfg
            ++ "/repos?type=all&per_page=100")) = GotHTTPError body ->
  settled (run P cfg s) =
    Rejected (TypeError "Cannot read property 'length' of undefined") /\
  errors (events (run P cfg s)) =
    [" Fetching repository list failed."; body] /\
  ~ In (ConsoleLog "All done, thank you!") (events (run P cfg s)).
Proof.
  cbv zeta. intros Hmade Hgot.
  unfold run, getRepos, handleRepos, catch_, then_, call_mkdirp,
    call_got_repos, when, console_log, console_error, emit, resolve, throw.
  cbn [world].
  destruct (mkdirp P (world s) (cloneBaseDir cfg)) as [made w].
  cbn [fst snd] in Hmade, Hgot. subst made.
  destruct (verbose cfg); cbv beta iota; cbn [world];
    destruct (got_repos P w _) as [g w']; cbn [fst] in Hgot; subst g;
    (split; [reflexivity|]; split; [reflexivity|]);
    cbn; intuition discriminate.
Qed.

(** C10: [parseJson] never throws: it returns what [JSON.parse] returns, and
    when [JSON.parse] throws it reports the error and returns [undefined]. *)
Theorem parseJson_never_throws (text : string) (s : State P) :
  parseJson P text s =
    match JSON_parse P text with
    | inl data => (Fulfilled (Some data), s, [])
    | inr message =>
        (Fulfilled None, s,
         [ConsoleError (" Parsing JSON failed. SyntaxError: " ++ message)])
    end /\
  exists data, settled (parseJson P text s) = Fulfilled data.
Proof.
  unfold parseJson, catch_, then_, console_error, emit, resolve, throw.
  destruct (JSON_parse P text) as [data|message]; split;
    try reflexivity; eexists; reflexivity.
Qed.

End Properties.

(** ** The program on the scripted platform *)

Section Runs.

Import Demo.

(** Whether a diagnostic lacks a text is decided by [indexOf]. *)
Lemma lacks (haystack needle : string) :
  needle <> EmptyString ->
  (indexOf haystack needle =? INDEX_NOT_FOUND)%Z = true ->
  ~ Contains haystack needle.
Proof. intros Hne. apply (proj1 (indexOf_not_found _ _ Hne)). Qed.

Lemma has (haystack needle : string) :
  (indexOf haystack needle =? INDEX_NOT_FOUND)%Z = false ->
  Contains haystack needle.
Proof.
  unfold indexOf, INDEX_NOT_FOUND, Contains.
  destruct (index 0 needle haystack) as [m|] eqn:Hi; [|discriminate].
  intros _. exists m. eapply index_correct1. exact Hi.
Qed.

(** C2 on the three kinds of repository of user [u]. *)
Lemma repoType_classifier_witness :
  repoType options y = "fork" /\
  repoType options x = "mine" /\
  repoType options z = "contributing".
Proof.
  split; [|split].
  - apply (proj1 (proj2 (repoType_classifier options y))). reflexivity.
  - apply (proj1 (proj2 (proj2 (repoType_classifier options x))));
      reflexivity.
  - apply (proj1 (proj2 (proj2 (proj2 (repoType_classifier options z))))).
    + reflexivity.
    + discriminate.
Defined.

(** C7 where the remote exists already, and where the command fails for good. *)
Lemma addRemote_tolerates_existing_remote_witness :
  (settled (addRemote existing_remote options y_detail "base/u/fork/y"
              "upstream" "git@github.com:up/y.git" (start existing_remote 0)) =
     Fulfilled y_detail /\
   errors (events (addRemote existing_remote options y_detail "base/u/fork/y"
                     "upstream" "git@github.com:up/y.git"
                     (start existing_remote 0))) = []) /\
  settled (addRemote broken_remote options y_detail "base/u/fork/y"
             "upstream" "git@github.com:up/y.git" (start broken_remote 0)) =
    Rejected
      (ExecError "git remote add upstream git@github.com:up/y.git"
         "fatal: not a git repository (or any of the parent directories): .git").
Proof.
  split.
  - apply (proj1 (proj2 (addRemote_tolerates_existing_remote existing_remote
                           options y_detail "base/u/fork/y" "upstream"
                           "git@github.com:up/y.git" (start existing_remote 0)))).
    + reflexivity.
    + apply has. reflexivity.
  - apply (proj1 (proj2 (proj2 (addRemote_tolerates_existing_remote
                                  broken_remote options y_detail
                                  "base/u/fork/y" "upstream"
                                  "git@github.com:up/y.git"
                                  (start broken_remote 0))))).
    + reflexivity.
    + apply lacks; [discriminate|reflexivity].
Defined.

(** C6 where both registrations succeed, and where the first one fails. *)
Lemma getFork_upstream_then_original_witness :
  execs (events (getFork calm options "base/u/fork/y" "u" "y" (start calm 0))) =
    [("base/u/fork/y", "git remote add upstream git@github.com:up/y.git");
     ("base/u/fork/y", "git remote add original git@github.com:root/y.git")] /\
  execs (events (getFork broken_remote options "base/u/fork/y" "u" "y"
                   (start broken_remote 0))) =
    [("base/u/fork/y", "git remote add upstream git@github.com:up/y.git")].
Proof.
  split.
  - apply (proj1 (proj2 (getFork_upstream_then_original calm options
                           "base/u/fork/y" "u" "y" (start calm 0)
                           y_detail y_parent y_source
                           eq_refl eq_refl eq_refl))).
    left. reflexivity.
  - apply (proj2 (proj2 (getFork_upstream_then_original broken_remote options
                           "base/u/fork/y" "u" "y" (start broken_remote 0)
                           y_detail y_parent y_source
                           eq_refl eq_refl eq_refl))).
    split; [reflexivity|].
    apply lacks; [discriminate|reflexivity].
Defined.

(** C4 on the fork [y] and on the plain repository [x], each cloned before. *)
Lemma cloneRepo_tolerates_existing_clone_witness :
  settled (cloneRepo (existing_clone y) options y (start (existing_clone y) 0)) =
    settled (getFork (existing_clone y) options "base/u/fork/y" "u" "y"
               (mkState (existing_clone y) 2 (mkProgress 0 2))) /\
  (settled (cloneRepo (existing_clone x) options x
              (start (existing_clone x) 0)) = Fulfilled (Some x) /\
   errors (events (cloneRepo (existing_clone x) options x
                     (start (existing_clone x) 0))) = []).
Proof.
  split.
  - refine (proj1 (proj2 (proj2 (cloneRepo_tolerates_existing_clone
                                   (existing_clone y) options y
                                   (start (existing_clone y) 0)
                                   eq_refl eq_refl _)) _)).
    + apply has. reflexivity.
    + reflexivity.
  - refine (proj1 (proj2 (cloneRepo_tolerates_existing_clone (existing_clone x)
                            options x (start (existing_clone x) 0)
                            eq_refl eq_refl _)) _).
    + apply has. reflexivity.
    + reflexivity.
Defined.

(** C8 on the fork [y]: cloned in [base/u/fork], linked in [base/u/fork/y]. *)
Lemma cloneRepo_target_layout_witness :
  exists linking,
    execs (events (cloneRepo calm options y (start calm 0))) =
      ("base/u/fork", "git clone git@github.com:u/y.git") :: linking /\
    Forall (fun c => fst c = "base/u/fork/y") linking.
Proof.
  apply (proj1 (proj2 (cloneRepo_target_layout calm options y (start calm 0)))).
  reflexivity.
Defined.

(** C9 on the fork [y] whose clone fails, with [z] behind it. *)
Lemma cloneRepo_failure_skips_linking_witness :
  gots (events (cloneRepo (broken_clone y) options y
                  (start (broken_clone y) 0))) = [] /\
  execs (events (cloneRepo (broken_clone y) options y
                   (start (broken_clone y) 0))) =
    [("base/u/fork", "git clone git@github.com:u/y.git")] /\
  settled (each (broken_clone y) (cloneRepo (broken_clone y) options) [y; z]
             (start (broken_clone y) 0)) =
    Rejected (ExecError "git clone git@github.com:u/y.git"
                "fatal: Could not read from remote repository.").
Proof.
  assert (Habsent : ~ Contains "fatal: Could not read from remote repository."
                      CLONE_EXISTS)
    by (apply lacks; [exact CLONE_EXISTS_not_empty|reflexivity]).
  pose proof (cloneRepo_failure_skips_linking (broken_clone y) options y [z]
                (start (broken_clone y) 0) eq_refl eq_refl Habsent)
    as (_ & _ & Hgots & Hexecs & Heach).
  split; [exact Hgots|]. split; [exact Hexecs|].
  rewrite Heach. reflexivity.
Defined.

(** C9 as stated fails: with the clone of [x] failing, [z] behind it is
    never cloned, although its own clone would have succeeded, as it does
    when the clone of [x] succeeds. *)
Lemma later_items_are_skipped :
  clone_attempts
    (events (handleRepos (broken_clone x) options (Some [x; z])
               (start (broken_clone x) 0))) =
    ["git clone git@github.com:u/x.git"] /\
  ~ In (clone_command z)
      (clone_attempts
         (events (handleRepos (broken_clone x) options (Some [x; z])
                    (start (broken_clone x) 0)))) /\
  failed (fst (exec (broken_clone x) 0 "base/u/contributing"
                 (clone_command z))) = false /\
  clone_attempts
    (events (handleRepos calm options (Some [x; z]) (start calm 0))) =
    ["git clone git@github.com:u/x.git"; "git clone git@github.com:other/z.git"].
Proof.
  split; [reflexivity|]. split; [|split; reflexivity].
  vm_compute. intros [H|[]]. discriminate H.
Qed.

(** C3 on a batch of two where the clone of [z] fails: the first item
    ticked twice, the second once. *)
Lemma handleRepos_progress_witness :
  progressBar (final (cloneRepo (broken_clone z) options x
                        (start (broken_clone z) 0))) = mkProgress 0 2 /\
  progressBar (final (cloneRepo (broken_clone z) options z
                        (start (broken_clone z) 0))) = mkProgress 0 1 /\
  curr (progressBar (final (handleRepos calm options (Some [x; y])
                              (start calm 0)))) = 4.
Proof.
  pose proof (handleRepos_progress (broken_clone z) options [x; z]
                (start (broken_clone z) 0)) as (_ & _ & _ & Hitem).
  split; [|split].
  - apply (proj1 (Hitem x (start (broken_clone z) 0) eq_refl)).
    left. reflexivity.
  - apply (proj2 (Hitem z (start (broken_clone z) 0) eq_refl)).
    split; [reflexivity|].
    apply lacks; [exact CLONE_EXISTS_not_empty|reflexivity].
  - apply (proj1 (proj2 (proj2 (handleRepos_progress calm options [x; y]
                                  (start calm 0)))) tt).
    reflexivity.
Defined.

(** C3 as stated fails: a batch of one whose clone fails has ticked once,
    not twice. *)
Lemma failed_clone_ticks_once :
  progressBar (final (handleRepos (broken_clone x) options (Some [x])
                        (start (broken_clone x) 0))) = mkProgress 2 1 /\
  curr (progressBar (final (handleRepos (broken_clone x) options (Some [x])
                              (start (broken_clone x) 0)))) <> 2 * length [x].
Proof. split; [reflexivity|]. vm_compute. discriminate. Qed.

(** C1 on a batch of three where the clone of [z], the second, fails. *)
Lemma handleRepos_settles_witness :
  settled (handleRepos (broken_clone z) options (Some [x; z; y])
             (start (broken_clone z) 0)) =
    Rejected (ExecError "git clone git@github.com:other/z.git"
                "fatal: Could not read from remote repository.") /\
  clone_attempts (events (handleRepos (broken_clone z) options (Some [x; z; y])
                            (start (broken_clone z) 0))) =
    ["git clone git@github.com:u/x.git"; "git clone git@github.com:other/z.git"].
Proof.
  assert (Habsent : ~ Contains "fatal: Could not read from remote repository."
                      CLONE_EXISTS)
    by (apply lacks; [exact CLONE_EXISTS_not_empty|reflexivity]).
  pose proof (proj1 (proj2 (handleRepos_settles (broken_clone z) options
                              [x; z; y] (start (broken_clone z) 0)))
                [x] z [y]
                (mkState (broken_clone z) 2 (mkProgress 6 2))
                [Mkdirp "base/u/mine";
                 Exec "base/u/mine" "git clone git@github.com:u/x.git"]
                eq_refl eq_refl eq_refl eq_refl Habsent)
    as (Hsettled & _ & Hattempts).
  split; [exact Hsettled|exact Hattempts].
Defined.

(** C1 as stated fails: with the clone of [x] failing the batch rejects,
    and neither [y] nor [z] is ever visited. *)
Lemma batch_rejects_on_clone_failure :
  settled (handleRepos (broken_clone x) options (Some [x; y; z])
             (start (broken_clone x) 0)) =
    Rejected (ExecError "git clone git@github.com:u/x.git"
                "fatal: Could not read from remote repository.") /\
  events (handleRepos (broken_clone x) options (Some [x; y; z])
            (start (broken_clone x) 0)) =
    [Mkdirp "base/u/mine";
     Exec "base/u/mine" "git clone git@github.com:u/x.git";
     ConsoleError " Cloning failed for git@github.com:u/x.git"].
Proof. split; reflexivity. Qed.

(** C5 fails on the code: when the forge answers the listing with 404,
    [getRepos] reports it and fulfils with [undefined], [handleRepos] then
    throws on [list.length], and the chain of [run] rejects without ever
    printing its last line. *)
Theorem run_rejects_after_failed_listing :
  run unknown_user options (start unknown_user 0) =
  (Rejected (TypeError "Cannot read property 'length' of undefined"),
   mkState unknown_user 2 (mkProgress 0 0),
   [ConsoleLog ("Cloning to a structure under " ++ dquote ++ "base" ++ dquote);
    Mkdirp "base";
    Got "https://api.github.com/users/u/repos?type=all&per_page=100";
    ConsoleError " Fetching repository list failed.";
    ConsoleError "Not Found"]).
Proof. reflexivity. Qed.

(** *** The scenarios of the specification *)

(** A repository of the user's own: one clone in [base/u/mine], no remote,
    two ticks. *)
Example scenario_mine :
  handleRepos calm options (Some [x]) (start calm 0) =
  (Fulfilled tt, mkState calm 2 (mkProgress 2 2),
   [Mkdirp "base/u/mine";
    Exec "base/u/mine" "git clone git@github.com:u/x.git"]).
Proof. reflexivity. Qed.

(** A fork: one clone in [base/u/fork], one lineage fetch, then [upstream]
    and [original] in [base/u/fork/y], two ticks. *)
Example scenario_fork :
  handleRepos calm options (Some [y]) (start calm 0) =
  (Fulfilled tt, mkState calm 5 (mkProgress 2 2),
   [Mkdirp "base/u/fork";
    Exec "base/u/fork" "git clone git@github.com:u/y.git";
    Got "https://api.github.com/repos/u/y";
    Exec "base/u/fork/y" "git remote add upstream git@github.com:up/y.git";
    Exec "base/u/fork/y" "git remote add original git@github.com:root/y.git"]).
Proof. reflexivity. Qed.

(** A repository cloned before: no error, two ticks, and the next item is
    cloned as usual. *)
Example scenario_cloned_before :
  errors (events (handleRepos (existing_clone x) options (Some [x; z])
                    (start (existing_clone x) 0))) = [] /\
  progressBar (final (handleRepos (existing_clone x) options (Some [x; z])
                        (start (existing_clone x) 0))) = mkProgress 4 4 /\
  clone_attempts (events (handleRepos (existing_clone x) options (Some [x; z])
                            (start (existing_clone x) 0))) =
    ["git clone git@github.com:u/x.git"; "git clone git@github.com:other/z.git"].
Proof. repeat split. Qed.

(** A fork whose lineage fetch fails: the failure is reported, no remote is
    added, and the batch goes on to the next item. *)
Example scenario_lineage_fetch_fails :
  handleRepos calm options (Some [lost; x]) (start calm 0) =
  (Fulfilled tt, mkState calm 5 (mkProgress 4 4),
   [Mkdirp "base/u/fork";
    Exec "base/u/fork" "git clone git@github.com:u/lost.git";
    Got "https://api.github.com/repos/u/lost";
    ConsoleError " Getting fork details failed.";
    ConsoleError "Not Found";
    Mkdirp "base/u/mine";
    Exec "base/u/mine" "git clone git@github.com:u/x.git"]).
Proof. reflexivity. Qed.

(** A remote that cannot be added: the error of [exec] has no [response], so
    the handler of [getFork] throws on [error.response.body], the item
    rejects after all, and [x] behind it is never cloned. *)
Example remote_failure_escapes_getFork :
  handleRepos broken_remote options (Some [y; x]) (start broken_remote 0) =
  (Rejected (TypeError "Cannot read property 'body' of undefined"),
   mkState broken_remote 4 (mkProgress 4 2),
   [Mkdirp "base/u/fork";
    Exec "base/u/fork" "git clone git@github.com:u/y.git";
    Got "https://api.github.com/repos/u/y";
    Exec "base/u/fork/y" "git remote add upstream git@github.com:up/y.git";
    ConsoleError (" Adding remote " ++ dquote ++ "upstream" ++ dquote
                    ++ " failed for git@github.com:up/y.git");
    ConsoleError " Getting fork details failed."]).
Proof. reflexivity. Qed.

End Runs.

(** ** Beyond the batch: linking, listing and the command line *)

Lemma logs_app (t1 t2 : list Event) :
  logs (t1 ++ t2) = (logs t1 ++ logs t2)%list.
Proof. apply flat_map_app. Qed.

Section Footprints.

Variable P : Platform.

Lemma emits_resolve {A} (Q : Event -> Prop) (v : A) : emits P Q (resolve P v).
Proof. intros s. constructor. Qed.

Lemma emits_throw {A} (Q : Event -> Prop) (e : JsError) :
  emits P Q (@throw P A e).
Proof. intros s. constructor. Qed.

Lemma emits_emit (Q : Event -> Prop) (ev : Event) :
  Q ev -> emits P Q (emit P ev).
Proof. intros H s. repeat constructor. exact H. Qed.

Lemma emits_when (Q : Event -> Prop) (b : bool) (p : Promise P unit) :
  (b = true -> emits P Q p) -> emits P Q (when P b p).
Proof. intros H. destruct b; [exact (H eq_refl)|apply emits_resolve]. Qed.

Lemma emits_tick (Q : Event -> Prop) : emits P Q (tick P).
Proof. intros s. constructor. Qed.

Lemma emits_new_Progress (Q : Event -> Prop) (n : nat) :
  emits P Q (new_Progress P n).
Proof. intros s. constructor. Qed.

Lemma emits_call_exec (Q : Event -> Prop) (cwd command : string) :
  Q (Exec cwd command) -> emits P Q (call_exec P cwd command).
Proof.
  intros H s. unfold call_exec, events.
  destruct (exec P (world s) cwd command). repeat constructor. exact H.
Qed.

Lemma emits_call_got_repo (Q : Event -> Prop) (url : string) :
  Q (Got url) -> emits P Q (call_got_repo P url).
Proof.
  intros H s. unfold call_got_repo, events.
  destruct (got_repo P (world s) url). repeat constructor. exact H.
Qed.

Lemma emits_call_got_repos (Q : Event -> Prop) (url : string) :
  Q (Got url) -> emits P Q (call_got_repos P url).
Proof.
  intros H s. unfold call_got_repos, events.
  destruct (got_repos P (world s) url). repeat constructor. exact H.
Qed.

Lemma emits_call_mkdirp (Q : Event -> Prop) (path : string) :
  Q (Mkdirp path) -> emits P Q (call_mkdirp P path).
Proof.
  intros H s. unfold call_mkdirp, events.
  destruct (mkdirp P (world s) path). repeat constructor. exact H.
Qed.

Lemma emits_then {A B} (Q : Event -> Prop) (p : Promise P A)
    (f : A -> Promise P B) :
  emits P Q p -> (forall v, emits P Q (f v)) -> emits P Q (then_ P p f).
Proof.
  intros Hp Hf s. rewrite then_run.
  destruct (settled (p s)) as [v|e]; rewrite events_triple.
  - apply (proj2 (Forall_app _ _ _)). split; [apply Hp|apply Hf].
  - apply Hp.
Qed.

Lemma emits_catch {A} (Q : Event -> Prop) (p : Promise P A)
    (h : JsError -> Promise P A) :
  emits P Q p -> (forall e, emits P Q (h e)) -> emits P Q (catch_ P p h).
Proof.
  intros Hp Hh s. rewrite catch_run.
  destruct (settled (p s)) as [v|e]; rewrite events_triple.
  - apply Hp.
  - apply (proj2 (Forall_app _ _ _)). split; [apply Hp|apply Hh].
Qed.

Lemma emits_in_turn {A B} (Q : Event -> Prop) (fn : A -> Promise P B)
    (arr : list A) :
  (forall item, In item arr -> emits P Q (fn item)) ->
  emits P Q (in_turn P fn arr).
Proof.
  induction arr as [|curr rest IH]; intros H; simpl.
  - apply emits_resolve.
  - apply emits_then; [apply H; left; reflexivity|intros _].
    apply IH. intros item Hin. apply H. right. exact Hin.
Qed.

Lemma emits_each {A B} (Q : Event -> Prop) (fn : A -> Promise P B)
    (arr : list A) :
  (forall item, In item arr -> emits P Q (fn item)) ->
  emits P Q (each P fn arr).
Proof.
  intros H s. rewrite each_run.
  apply emits_then; [apply emits_in_turn; exact H|intros _].
  apply emits_resolve.
Qed.

(** The same, when the callback is only ever given values that satisfy [R]. *)
Lemma emits_then_value {A B} (Q : Event -> Prop) (R : A -> Prop)
    (p : Promise P A) (f : A -> Promise P B) :
  (forall s v, settled (p s) = Fulfilled v -> R v) ->
  emits P Q p -> (forall v, R v -> emits P Q (f v)) ->
  emits P Q (then_ P p f).
Proof.
  intros Hv Hp Hf s. rewrite then_run.
  destruct (settled (p s)) as [v|e] eqn:Hs; rewrite events_triple.
  - apply (proj2 (Forall_app _ _ _)).
    split; [apply Hp|apply (Hf v (Hv s v Hs))].
  - apply Hp.
Qed.

Lemma without_logs_app (t1 t2 : list Event) :
  without_logs (t1 ++ t2) = (without_logs t1 ++ without_logs t2)%list.
Proof. apply filter_app. Qed.

Lemma alike_refl {A} (p : Promise P A) : alike P p p.
Proof. intros s. repeat split. Qed.

Lemma alike_when_log (b b' : bool) (m m' : string) :
  alike P (when P b (console_log P m)) (when P b' (console_log P m')).
Proof. intros s. destruct b, b'; repeat split. Qed.

Lemma alike_then {A B} (p q : Promise P A) (f g : A -> Promise P B) :
  alike P p q -> (forall v, alike P (f v) (g v)) ->
  alike P (then_ P p f) (then_ P q g).
Proof.
  intros Hp Hf s. rewrite !then_run.
  destruct (Hp s) as (Hs & Hfin & Hev). rewrite <- Hs, <- Hfin.
  destruct (settled (p s)) as [v|e];
    rewrite !settled_triple, !final_triple, !events_triple.
  - destruct (Hf v (final (p s))) as (Hs' & Hfin' & Hev').
    rewrite !without_logs_app, Hev, Hev'. repeat split; assumption.
  - repeat split. exact Hev.
Qed.

Lemma alike_catch {A} (p q : Promise P A) (h k : JsError -> Promise P A) :
  alike P p q -> (forall e, alike P (h e) (k e)) ->
  alike P (catch_ P p h) (catch_ P q k).
Proof.
  intros Hp Hh s. rewrite !catch_run.
  destruct (Hp s) as (Hs & Hfin & Hev). rewrite <- Hs, <- Hfin.
  destruct (settled (p s)) as [v|e];
    rewrite !settled_triple, !final_triple, !events_triple.
  - repeat split. exact Hev.
  - destruct (Hh e (final (p s))) as (Hs' & Hfin' & Hev').
    rewrite !without_logs_app, Hev, Hev'. repeat split; assumption.
Qed.

Lemma alike_in_turn {A B} (fn fn' : A -> Promise P B) (arr : list A) :
  (forall item, alike P (fn item) (fn' item)) ->
  alike P (in_turn P fn arr) (in_turn P fn' arr).
Proof.
  intros H. induction arr as [|curr rest IH]; simpl.
  - apply alike_refl.
  - apply alike_then; [apply H|intros _; exact IH].
Qed.

Lemma alike_each {A B} (fn fn' : A -> Promise P B) (arr : list A) :
  (forall item, alike P (fn item) (fn' item)) ->
  alike P (each P fn arr) (each P fn' arr).
Proof.
  intros H s. rewrite !each_run.
  apply alike_then; [apply alike_in_turn; exact H|intros _].
  apply alike_refl.
Qed.

Lemma emits_weaken {A} (Q Q' : Event -> Prop) (p : Promise P A) :
  (forall ev, Q ev -> Q' ev) -> emits P Q p -> emits P Q' p.
Proof. intros H Hp s. exact (Forall_impl Q' H (Hp s)). Qed.

End Footprints.

Section Coverage.

Variable P : Platform.
Variable cfg : Options.

(** *** What one call of [getFork] does *)

Lemma getFork_run (forkPath user repo : string) (s : State P) :
  getFork P cfg forkPath user repo s =
  let url := GH_API_URL ++ "repos/" ++ user ++ "/" ++ repo in
  let fetched := got_repo P (world s) url in
  let s1 := mkState P (snd fetched) (progressBar s) in
  let log := if verbose cfg
             then [ConsoleLog (" Received fork data for URL: " ++ url)]
             else [] in
  match fst fetched with
  | GotResponse item =>
      match parent item with
      | None =>
          link_failed P
            (TypeError "Cannot read property 'ssh_url' of undefined") s1
            (Got url :: log)
      | Some p =>
          let first := addRemote P cfg item forkPath "upstream" (ssh_url p) s1 in
          match settled first with
          | Rejected e =>
              link_failed P e (final first) (Got url :: log ++ events first)
          | Fulfilled item1 =>
              match source item1 with
              | None =>
                  link_failed P
                    (TypeError "Cannot read property 'ssh_url' of undefined")
                    (final first) (Got url :: log ++ events first)
              | Some o =>
                  let second :=
                    addRemote P cfg item1 forkPath "original" (ssh_url o)
                      (final first) in
                  match settled second with
                  | Rejected e =>
                      link_failed P e (final second)
                        (Got url :: log ++ events first ++ events second)
                  | Fulfilled item2 =>
                      (Fulfilled (Some item2), final second,
                       (Got url :: log ++ events first ++ events second)%list)
                  end
              end
          end
      end
  | GotHTTPError body => link_failed P (HTTPError body) s1 [Got url]
  | GotRequestError code => link_failed P (RequestError code) s1 [Got url]
  end.
Proof.
  cbv zeta.
  unfold getFork, catch_, then_, call_got_repo, when, console_log,
    console_error, emit, resolve, throw, link_failed, settled, final, events.
  destruct (got_repo P (world s) _) as [[item|body|code] w1];
    cbn [settle_got fst snd response]; try reflexivity.
  destruct (verbose cfg); cbv beta iota;
    (destruct (parent item) as [p|]; [|reflexivity]);
    (destruct (addRemote P cfg item forkPath "upstream" (ssh_url p) _)
       as [[[item1|e1] s2] t2]; cbn [fst snd];
     [ destruct (source item1) as [o|];
       [ destruct (addRemote P cfg item1 forkPath "original" (ssh_url o) _)
           as [[[item2|e2] s3] t3]; cbn [fst snd];
         [|destruct (response e2)]
       |]
     | destruct (response e1) ]);
    cbn [app]; rewrite <- ?app_assoc, ?app_nil_r; cbn [app];
    rewrite <- ?app_assoc; reflexivity.
Qed.


(** Whatever the forge and [git] answer, fork linking makes exactly one
    request, for the record of the repository and before anything else, runs
    at most two commands, each a [git remote add] in the clone, makes no
    directory and leaves the progress bar alone. *)
Theorem getFork_footprint (forkPath user repo : string) (s : State P) :
  let url := GH_API_URL ++ "repos/" ++ user ++ "/" ++ repo in
  let out := getFork P cfg forkPath user repo s in
  (exists rest, events out = Got url :: rest /\ gots rest = []) /\
  mkdirps (events out) = [] /\
  progressBar (final out) = progressBar s /\
  length (execs (events out)) <= 2 /\
  Forall (fun c => fst c = forkPath /\
                   prefix "git remote add " (snd c) = true)
    (execs (events out)).
Proof.
  cbv zeta. rewrite getFork_run. cbv zeta. unfold link_failed.
  destruct (fst (got_repo P (world s) _)) as [item|body|code];
    cbn [response];
    [|repeat split; try (eexists; split; reflexivity);
      try constructor; cbn; lia ..].
  destruct (parent item) as [p|]; cbn [response];
    [|repeat split; try (eexists; split; [reflexivity|]);
      destruct (verbose cfg); try reflexivity; try constructor; cbn; lia].
  rewrite addRemote_run. cbv zeta.
  destruct (failed _ && _);
    rewrite ?settled_triple, ?final_triple, ?events_triple; cbn [response].
  - repeat split; try (eexists; split; [reflexivity|]);
      destruct (verbose cfg); try reflexivity; cbn; try lia;
      repeat constructor.
  - destruct (source item) as [o|]; cbn [response].
    + rewrite addRemote_run. cbv zeta.
      destruct (failed _ && _);
        rewrite ?settled_triple, ?final_triple, ?events_triple;
        cbn [response];
        repeat split; try (eexists; split; [reflexivity|]);
        destruct (verbose cfg); try reflexivity; cbn; try lia;
        repeat constructor; apply prefix_append.
    + repeat split; try (eexists; split; [reflexivity|]);
        destruct (verbose cfg); try reflexivity; cbn; try lia;
        repeat constructor.
Qed.

(** When the record arrives with parent and source and each registration
    succeeds or finds its remote already there, [getFork] fulfils with the
    record and reports nothing. *)
Theorem getFork_links_fork
    (forkPath user repo : string) (s : State P) (item p o : Repo) :
  let url := GH_API_URL ++ "repos/" ++ user ++ "/" ++ repo in
  let fetched := got_repo P (world s) url in
  let first := exec P (snd fetched) forkPath
                 (remote_command "upstream" (ssh_url p)) in
  let second := exec P (snd first) forkPath
                  (remote_command "original" (ssh_url o)) in
  let out := getFork P cfg forkPath user repo s in
  fst fetched = GotResponse item ->
  parent item = Some p ->
  source item = Some o ->
  failed (fst first) = false \/
  Contains (stderr (fst first)) (remote_exists "upstream") ->
  failed (fst second) = false \/
  Contains (stderr (fst second)) (remote_exists "original") ->
  settled out = Fulfilled (Some item) /\
  final out = mkState P (snd second) (progressBar s) /\
  errors (events out) = [].
Proof.
  cbv zeta. intros Hgot Hp Ho H1 H2.
  rewrite getFork_run. cbv zeta. rewrite Hgot, Hp.
  rewrite addRemote_run. cbv zeta. cbn [world progressBar].
  rewrite (proj2 (tolerated_iff _ _ (remote_exists_not_empty _)) H1).
  rewrite settled_triple, final_triple, events_triple, Ho.
  rewrite addRemote_run. cbv zeta. cbn [world progressBar].
  rewrite (proj2 (tolerated_iff _ _ (remote_exists_not_empty _)) H2).
  rewrite !settled_triple, !final_triple, !events_triple.
  split; [reflexivity|]. split; [reflexivity|].
  destruct (verbose cfg); reflexivity.
Qed.

(** A record without [parent] stops fork linking before any command; one
    without [source] stops it after [upstream] was added.  Either way the
    failure is reported once and the promise rejects, with the error the
    handler itself throws on [error.response.body]. *)
Theorem getFork_incomplete_lineage
    (forkPath user repo : string) (s : State P) (item : Repo) :
  let url := GH_API_URL ++ "repos/" ++ user ++ "/" ++ repo in
  let fetched := got_repo P (world s) url in
  let out := getFork P cfg forkPath user repo s in
  fst fetched = GotResponse item ->
  (parent item = None ->
   settled out =
     Rejected (TypeError "Cannot read property 'body' of undefined") /\
   execs (events out) = [] /\
   errors (events out) = [" Getting fork details failed."]) /\
  (forall p,
     let first := exec P (snd fetched) forkPath
                    (remote_command "upstream" (ssh_url p)) in
     parent item = Some p ->
     source item = None ->
     failed (fst first) = false \/
     Contains (stderr (fst first)) (remote_exists "upstream") ->
     settled out =
       Rejected (TypeError "Cannot read property 'body' of undefined") /\
     execs (events out) =
       [(forkPath, remote_command "upstream" (ssh_url p))] /\
     errors (events out) = [" Getting fork details failed."]).
Proof.
  cbv zeta. intros Hgot. split.
  - intros Hp. rewrite getFork_run. cbv zeta. rewrite Hgot, Hp.
    unfold link_failed. cbn [response].
    rewrite settled_triple, events_triple.
    split; [reflexivity|]. split; destruct (verbose cfg); reflexivity.
  - intros p Hp Ho H1. rewrite getFork_run. cbv zeta. rewrite Hgot, Hp.
    rewrite addRemote_run. cbv zeta. cbn [world progressBar].
    rewrite (proj2 (tolerated_iff _ _ (remote_exists_not_empty _)) H1).
    rewrite settled_triple, final_triple, events_triple, Ho.
    unfold link_failed. cbn [response].
    rewrite settled_triple, events_triple.
    split; [reflexivity|]. split; destruct (verbose cfg); reflexivity.
Qed.


(** A lineage fetch that fails runs no command.  With an HTTP error it is
    reported with the body of the response and swallowed: [getFork] fulfils
    with [undefined].  Without a response the handler throws and [getFork]
    rejects. *)
Theorem getFork_fetch_failure (forkPath user repo : string) (s : State P) :
  let url := GH_API_URL ++ "repos/" ++ user ++ "/" ++ repo in
  let fetched := got_repo P (world s) url in
  let out := getFork P cfg forkPath user repo s in
  (forall body,
     fst fetched = GotHTTPError body ->
     out = (Fulfilled None, mkState P (snd fetched) (progressBar s),
            [Got url; ConsoleError " Getting fork details failed.";
             ConsoleError body])) /\
  (forall code,
     fst fetched = GotRequestError code ->
     out = (Rejected (TypeError "Cannot read property 'body' of undefined"),
            mkState P (snd fetched) (progressBar s),
            [Got url; ConsoleError " Getting fork details failed."])).
Proof.
  cbv zeta. split.
  - intros body Hgot. rewrite getFork_run. cbv zeta. rewrite Hgot. reflexivity.
  - intros code Hgot. rewrite getFork_run. cbv zeta. rewrite Hgot. reflexivity.
Qed.

(** *** Listing *)

(** [getRepos] makes one request, for the repositories of the user, and
    nothing else outside the console.  A response is passed on untouched; an
    HTTP error is reported with its body and turned into [undefined]; a
    failure without a response is reported and then makes the handler itself
    throw, so [getRepos] rejects. *)
Theorem getRepos_outcomes (s : State P) :
  let url := GH_API_URL ++ "users/" ++ username cfg
               ++ "/repos?type=all&per_page=100" in
  let fetched := got_repos P (world s) url in
  let out := getRepos P cfg s in
  gots (events out) = [url] /\
  execs (events out) = [] /\
  mkdirps (events out) = [] /\
  final out = mkState P (snd fetched) (progressBar s) /\
  match fst fetched with
  | GotResponse body =>
      settled out = Fulfilled (Some body) /\ errors (events out) = []
  | GotHTTPError body =>
      settled out = Fulfilled None /\
      errors (events out) = [" Fetching repository list failed."; body]
  | GotRequestError _ =>
      settled out =
        Rejected (TypeError "Cannot read property 'body' of undefined") /\
      errors (events out) = [" Fetching repository list failed."]
  end.
Proof.
  cbv zeta.
  unfold getRepos, catch_, then_, call_got_repos, when, console_log,
    console_error, emit, resolve, throw.
  destruct (verbose cfg); cbv beta iota; cbn [world progressBar];
    destruct (got_repos P (world s) _) as [[body|body|code] w];
    repeat split.
Qed.

(** *** A target directory that cannot be made *)

(** When [mkdirp] throws, [cloneRepo] rejects with that error before it
    clones, ticks or asks the forge anything, and a batch stops at that
    item. *)
Theorem cloneRepo_without_target
    (item : Repo) (rest : list Repo) (s : State P) :
  let target := clonePath P cfg item in
  let made := mkdirp P (world s) target in
  fst made = false ->
  cloneRepo P cfg item s =
    (Rejected (FsError target), mkState P (snd made) (progressBar s),
     [Mkdirp target]) /\
  each P (cloneRepo P cfg) (item :: rest) s =
    (Rejected (FsError target), mkState P (snd made) (progressBar s),
     [Mkdirp target]).
Proof.
  cbv zeta. intros Hmade.
  assert (H : cloneRepo P cfg item s =
              (Rejected (FsError (clonePath P cfg item)),
               mkState P (snd (mkdirp P (world s) (clonePath P cfg item)))
                 (progressBar s),
               [Mkdirp (clonePath P cfg item)]))
    by (rewrite cloneRepo_run; cbv zeta; rewrite Hmade; reflexivity).
  split; [exact H|].
  rewrite each_cons, H. reflexivity.
Qed.

(** *** What a batch may touch *)

(** Breaks a promise into its calls. *)
Ltac emits_calls :=
  unfold console_log, console_error, render;
  repeat first
    [ apply emits_resolve
    | apply emits_throw
    | apply emits_tick
    | apply emits_new_Progress
    | apply emits_emit
    | apply emits_call_exec
    | apply emits_call_got_repo
    | apply emits_call_got_repos
    | apply emits_call_mkdirp
    | apply emits_when; intros ?
    | apply emits_then; [|intros ?]
    | apply emits_catch; [|intros ?]
    | match goal with
      | |- emits _ _ (match ?x with Some _ => _ | None => _ end) => destruct x
      | |- emits _ _ (if ?x then _ else _) => destruct x eqn:?
      end ].

Lemma addRemote_calls (item i : Repo) (remote url : string) :
  fork i = true ->
  emits P (item_event P cfg i)
    (addRemote P cfg item (path_join P [clonePath P cfg i; name i])
       remote url).
Proof.
  intros Hfork. unfold addRemote. emits_calls; cbn [item_event].
  - assumption.
  - right. split; [exact Hfork|]. split; [reflexivity|apply prefix_append].
  - exact I.
Qed.

Lemma getFork_calls (item : Repo) :
  fork item = true ->
  emits P (item_event P cfg item)
    (getFork P cfg (path_join P [clonePath P cfg item; name item])
       (owner_login item) (name item)).
Proof.
  intros Hfork. unfold getFork.
  apply emits_catch; [|intros e; emits_calls; exact I].
  apply emits_then; [emits_calls; cbn [item_event];
                     [split; [exact Hfork|reflexivity]|assumption]
                    |intros body].
  apply emits_then.
  - destruct (parent body); [apply addRemote_calls; exact Hfork
                            |apply emits_throw].
  - intros body'. apply emits_then; [|intros ?; apply emits_resolve].
    destruct (source body'); [apply addRemote_calls; exact Hfork
                             |apply emits_throw].
Qed.

Lemma execClone_value (item v : Repo) (s : State P) :
  settled (execClone P cfg item s) = Fulfilled v -> v = item.
Proof.
  rewrite execClone_run. cbv zeta.
  destruct (failed _ && _); rewrite settled_triple; [discriminate|].
  intros H. injection H as <-. reflexivity.
Qed.

(** Everything [cloneRepo] does for an item is a call of that item. *)
Lemma cloneRepo_calls (item : Repo) :
  emits P (item_event P cfg item) (cloneRepo P cfg item).
Proof.
  unfold cloneRepo.
  apply emits_then; [apply emits_call_mkdirp; reflexivity|intros _].
  apply emits_then; [emits_calls; assumption|intros _].
  apply (emits_then_value P _ (fun v => v = item)).
  - intros s v. apply execClone_value.
  - unfold execClone. emits_calls; cbn [item_event];
      [left; split; reflexivity|exact I].
  - intros v ->. unfold afterClone.
    apply emits_then; [apply emits_tick|intros _].
    apply emits_then; [apply emits_resolve|intros _].
    destruct (fork item) eqn:Hfork; [|apply emits_resolve].
    apply getFork_calls. exact Hfork.
Qed.

(** Whatever happens, every directory a batch makes, every command it runs
    and every request it sends belongs to an item of the list: the target
    of the item, [git clone] of its URL there, and for forks only the
    request for its record and [git remote add] in its clone.  Nothing is
    written with [console.log] unless [verbose] is set. *)
Theorem handleRepos_footprint (list : list Repo) (s : State P) :
  Forall (fun ev => exists item, In item list /\ item_event P cfg item ev)
    (events (handleRepos P cfg (Some list) s)).
Proof.
  rewrite handleRepos_run.
  apply emits_each. intros item Hin.
  apply (emits_weaken P (item_event P cfg item)).
  - intros ev Hev. exists item. split; assumption.
  - apply cloneRepo_calls.
Qed.

(** *** The order of a batch *)

(** Each item makes its target directory, once, whatever follows. *)
Lemma cloneRepo_mkdirps (item : Repo) (s : State P) :
  mkdirps (events (cloneRepo P cfg item s)) = [clonePath P cfg item].
Proof.
  rewrite cloneRepo_run. cbv zeta.
  assert (Hlog : mkdirps
                   (if verbose cfg
                    then [ConsoleLog ("Cloning repository " ++ ssh_url item)]
                    else []) = [])
    by (destruct (verbose cfg); reflexivity).
  destruct (fst (mkdirp P (world s) (clonePath P cfg item))); [|reflexivity].
  destruct (failed _ && _); [|destruct (fork item)]; rewrite events_triple.
  - change (Mkdirp ?d :: ?l ++ ?r)%list with ([Mkdirp d] ++ l ++ r)%list.
    rewrite !mkdirps_app, Hlog. reflexivity.
  - change (Mkdirp ?d :: ?l ++ ?c :: ?t)%list
      with ([Mkdirp d] ++ l ++ [c] ++ t)%list.
    rewrite !mkdirps_app, Hlog.
    rewrite (link_events_mkdirps _ _ (proj2 (getFork_steady _ _ _ _ _ _))).
    reflexivity.
  - change (Mkdirp ?d :: ?l ++ ?r)%list with ([Mkdirp d] ++ l ++ r)%list.
    rewrite !mkdirps_app, Hlog. reflexivity.
Qed.

(** Each item runs its [git clone] at most once. *)
Lemma cloneRepo_attempts (item : Repo) (s : State P) :
  clone_attempts (events (cloneRepo P cfg item s)) = [] \/
  clone_attempts (events (cloneRepo P cfg item s)) = [clone_command item].
Proof.
  destruct (settled (cloneRepo P cfg item s)) as [v|e] eqn:Hs.
  - right. exact (cloneRepo_fulfilled_attempt _ _ _ _ _ Hs).
  - revert Hs. rewrite cloneRepo_run. cbv zeta.
    destruct (fst (mkdirp P (world s) (clonePath P cfg item)));
      [|intros _; left; reflexivity].
    assert (Hlog : clone_attempts
                     (if verbose cfg
                      then [ConsoleLog ("Cloning repository " ++ ssh_url item)]
                      else []) = [])
      by (destruct (verbose cfg); reflexivity).
    destruct (failed _ && _); [|destruct (fork item)];
      rewrite settled_triple, events_triple; intros Hs; [| |discriminate Hs];
      right.
    + change (Mkdirp ?d :: ?l ++ [?c; ?x])%list
        with ([Mkdirp d] ++ l ++ [c] ++ [x])%list.
      rewrite !clone_attempts_app, Hlog, clone_attempts_clone. reflexivity.
    + change (Mkdirp ?d :: ?l ++ ?c :: ?t)%list
        with ([Mkdirp d] ++ l ++ [c] ++ t)%list.
      rewrite !clone_attempts_app, Hlog, clone_attempts_clone.
      rewrite (link_events_clone_attempts _ _
                 (proj2 (getFork_steady _ _ _ _ _ _))).
      reflexivity.
Qed.

Lemma each_fulfilled_mkdirps (list : list Repo) :
  forall (s : State P) (v : unit),
    settled (each P (cloneRepo P cfg) list s) = Fulfilled v ->
    mkdirps (events (each P (cloneRepo P cfg) list s)) =
      map (clonePath P cfg) list.
Proof.
  induction list as [|item rest IH]; intros s v.
  - intros _. reflexivity.
  - rewrite each_cons.
    destruct (settled (cloneRepo P cfg item s)) as [v1|e] eqn:Hitem;
      [|discriminate].
    destruct (settled (each P (cloneRepo P cfg) rest _)) as [v2|e] eqn:Hrest;
      [|discriminate].
    rewrite settled_triple, events_triple. intros _.
    rewrite mkdirps_app, cloneRepo_mkdirps, (IH _ _ Hrest). reflexivity.
Qed.

(** A batch goes through the list front to back and never returns to an
    item: the directories made are the targets of an initial part of the
    list, in order, and the clones run are those of the same items, except
    perhaps the last of them.  Unless the batch rejects, that initial part
    is the whole list. *)
Theorem handleRepos_in_order (list : list Repo) (s : State P) :
  let out := handleRepos P cfg (Some list) s in
  exists visited rest,
    list = (visited ++ rest)%list /\
    mkdirps (events out) = map (clonePath P cfg) visited /\
    (clone_attempts (events out) = map clone_command visited \/
     clone_attempts (events out) = map clone_command (removelast visited)) /\
    (rest = [] \/ exists e, settled out = Rejected e).
Proof.
  cbv zeta. rewrite handleRepos_run.
  set (s0 := mkState P (world s) (mkProgress (length list * 2) 0)).
  destruct (each_settles P (cloneRepo P cfg) list s0)
    as [(s' & t & H)
       |(pre & item & post & s1 & t1 & e & Hlist & Hpre & Hitem & H)].
  - assert (Hs : settled (each P (cloneRepo P cfg) list s0) = Fulfilled tt)
      by (rewrite H; reflexivity).
    exists list, []. split; [rewrite app_nil_r; reflexivity|].
    split; [exact (each_fulfilled_mkdirps _ _ _ Hs)|].
    split; [left; exact (proj2 (each_fulfilled_attempts _ _ _ _ _ Hs))|].
    left. reflexivity.
  - assert (Hs : settled (each P (cloneRepo P cfg) pre s0) = Fulfilled tt)
      by (rewrite Hpre; reflexivity).
    pose proof (each_fulfilled_mkdirps _ _ _ Hs) as Hm.
    pose proof (proj2 (each_fulfilled_attempts _ _ _ _ _ Hs)) as Ha.
    rewrite Hpre, events_triple in Hm, Ha.
    exists (pre ++ [item])%list, post.
    split; [rewrite Hlist, <- app_assoc; reflexivity|].
    rewrite H, events_triple, settled_triple.
    rewrite mkdirps_app, clone_attempts_app, cloneRepo_mkdirps, Hm, Ha.
    rewrite removelast_last, !map_app.
    split; [reflexivity|]. split.
    + destruct (cloneRepo_attempts item s1) as [-> | ->].
      * right. rewrite app_nil_r. reflexivity.
      * left. reflexivity.
    + right. exists e. reflexivity.
Qed.

(** *** The driver *)

Definition banner : Event :=
  ConsoleLog ("Cloning to a structure under " ++ dquote
                ++ cloneBaseDir cfg ++ dquote).

Definition all_done : Event := ConsoleLog "All done, thank you!".

Lemma run_run (s : State P) :
  run P cfg s =
  let base := cloneBaseDir cfg in
  let made := mkdirp P (world s) base in
  let s1 := mkState P (snd made) (progressBar s) in
  let listed := getRepos P cfg s1 in
  if fst made then
    match settled listed with
    | Fulfilled data =>
        let handled := handleRepos P cfg data (final listed) in
        match settled handled with
        | Fulfilled _ =>
            (Fulfilled tt, final handled,
             (banner :: Mkdirp base
                :: events listed ++ events handled ++ [all_done])%list)
        | Rejected e =>
            (Rejected e, final handled,
             (banner :: Mkdirp base :: events listed ++ events handled)%list)
        end
    | Rejected e =>
        (Rejected e, final listed,
         (banner :: Mkdirp base :: events listed)%list)
    end
  else (Rejected (FsError base), s1, [banner; Mkdirp base]).
Proof.
  cbv zeta. unfold run, banner, all_done.
  unfold then_ at 1 2, console_log at 1, emit at 1, call_mkdirp.
  destruct (mkdirp P (world s) (cloneBaseDir cfg)) as [[|] w];
    cbn [fst snd world progressBar]; [|reflexivity].
  rewrite then_run, then_run.
  destruct (settled (getRepos P cfg _)) as [data|e];
    rewrite ?settled_triple, ?final_triple, ?events_triple; [|reflexivity].
  destruct (settled (handleRepos P cfg data _)) as [v|e];
    rewrite ?settled_triple, ?final_triple, ?events_triple.
  - unfold console_log, emit.
    rewrite settled_triple, final_triple, events_triple.
    cbn [app]. rewrite <- app_assoc. reflexivity.
  - reflexivity.
Qed.

(** The last line is never printed by the listing or by the batch. *)
Lemma getRepos_never_done :
  emits P (fun ev => ev <> all_done) (getRepos P cfg).
Proof.
  unfold getRepos, all_done. emits_calls;
    (let E := fresh "E" in intros E; simpl in E; discriminate E).
Qed.

Lemma handleRepos_never_done (data : option (list Repo)) :
  emits P (fun ev => ev <> all_done) (handleRepos P cfg data).
Proof.
  unfold handleRepos, all_done. destruct data as [list|]; [|apply emits_throw].
  apply emits_then; [apply emits_new_Progress|intros _].
  apply emits_each. intros item _.
  unfold cloneRepo, execClone, afterClone, getFork, addRemote.
  emits_calls; (let E := fresh "E" in intros E; simpl in E; discriminate E).
Qed.

(** [run] prints its last line exactly when its chain fulfils, and then as
    the very last thing it does. *)
Theorem run_all_done (s : State P) :
  let out := run P cfg s in
  (settled out = Fulfilled tt <-> In all_done (events out)) /\
  (settled out = Fulfilled tt ->
   exists before, events out = (before ++ [all_done])%list /\
                  ~ In all_done before).
Proof.
  cbv zeta. rewrite run_run. cbv zeta.
  set (s1 := mkState P (snd (mkdirp P (world s) (cloneBaseDir cfg)))
               (progressBar s)).
  pose proof (getRepos_never_done s1) as Hlisted.
  assert (Hbanner : banner <> all_done)
    by (unfold banner, all_done; intros H; simpl in H; discriminate H).
  assert (Hmk : Mkdirp (cloneBaseDir cfg) <> all_done) by discriminate.
  rewrite Forall_forall in Hlisted.
  destruct (fst (mkdirp P (world s) (cloneBaseDir cfg))).
  - destruct (settled (getRepos P cfg s1)) as [data|e].
    + pose proof (handleRepos_never_done data (final (getRepos P cfg s1)))
        as Hhandled.
      rewrite Forall_forall in Hhandled.
      assert (Hnot : ~ In all_done
                (banner :: Mkdirp (cloneBaseDir cfg)
                   :: events (getRepos P cfg s1)
                   ++ events (handleRepos P cfg data
                                (final (getRepos P cfg s1))))%list).
      { intros [H|[H|H]]; [exact (Hbanner H)|exact (Hmk H)|].
        apply in_app_or in H. destruct H as [H|H].
        - exact (Hlisted _ H eq_refl).
        - exact (Hhandled _ H eq_refl). }
      destruct (settled (handleRepos P cfg data _)) as [v|e];
        rewrite settled_triple, events_triple.
      * split.
        -- split; [intros _|reflexivity].
           right. right. apply in_or_app. right.
           apply in_or_app. right. left. reflexivity.
        -- intros _.
           exists (banner :: Mkdirp (cloneBaseDir cfg)
                     :: events (getRepos P cfg s1)
                     ++ events (handleRepos P cfg data
                                  (final (getRepos P cfg s1))))%list.
           split; [|exact Hnot].
           cbn [app]. rewrite <- app_assoc. reflexivity.
      * split; [|discriminate].
        split; [discriminate|]. intros H. exfalso. exact (Hnot H).
    + rewrite settled_triple, events_triple.
      split; [|discriminate].
      split; [discriminate|].
      intros [H|[H|H]]; exfalso;
        [exact (Hbanner H)|exact (Hmk H)|exact (Hlisted _ H eq_refl)].
  - rewrite settled_triple, events_triple.
    split; [|discriminate].
    split; [discriminate|].
    intros [H|[H|[]]]; exfalso; [exact (Hbanner H)|exact (Hmk H)].
Qed.

Lemma no_logs (t : list Event) :
  Forall (fun ev => forall m, ev <> ConsoleLog m) t -> logs t = [].
Proof.
  induction 1 as [|ev t Hev _ IH]; [reflexivity|].
  destruct ev; simpl; try exact IH.
  exfalso. exact (Hev _ eq_refl).
Qed.

Lemma getRepos_quiet :
  verbose cfg = false ->
  emits P (fun ev => forall m, ev <> ConsoleLog m) (getRepos P cfg).
Proof.
  intros Hv. unfold getRepos. emits_calls; try discriminate.
  congruence.
Qed.

Lemma handleRepos_quiet (data : option (list Repo)) :
  verbose cfg = false ->
  emits P (fun ev => forall m, ev <> ConsoleLog m) (handleRepos P cfg data).
Proof.
  intros Hv. unfold handleRepos. destruct data as [list|]; [|apply emits_throw].
  apply emits_then; [apply emits_new_Progress|intros _].
  apply emits_each. intros item _.
  apply (emits_weaken P (item_event P cfg item)); [|apply cloneRepo_calls].
  intros [m| | | |] Hev m'; try discriminate.
  cbn [item_event] in Hev. congruence.
Qed.

(** Without [verbose] the program writes two lines with [console.log] at
    most: where it clones to, first, and its last line if the chain
    fulfils.  The listing and the batch write none. *)
Theorem run_console (s : State P) :
  verbose cfg = false ->
  logs (events (run P cfg s)) =
    ("Cloning to a structure under " ++ dquote ++ cloneBaseDir cfg ++ dquote)
    :: match settled (run P cfg s) with
       | Fulfilled _ => ["All done, thank you!"]
       | Rejected _ => []
       end.
Proof.
  intros Hv. rewrite run_run. cbv zeta.
  set (s1 := mkState P (snd (mkdirp P (world s) (cloneBaseDir cfg)))
               (progressBar s)).
  pose proof (no_logs _ (getRepos_quiet Hv s1)) as Hlisted.
  destruct (fst (mkdirp P (world s) (cloneBaseDir cfg))); [|reflexivity].
  destruct (settled (getRepos P cfg s1)) as [data|e].
  - pose proof (no_logs _ (handleRepos_quiet data Hv
                             (final (getRepos P cfg s1)))) as Hhandled.
    destruct (settled (handleRepos P cfg data _)) as [v|e];
      rewrite settled_triple, events_triple;
      change (banner :: Mkdirp ?d :: ?t)%list
        with ([banner] ++ [Mkdirp d] ++ t)%list;
      rewrite !logs_app, Hlisted, Hhandled; reflexivity.
  - rewrite settled_triple, events_triple.
    change (banner :: Mkdirp ?d :: ?t)%list
      with ([banner] ++ [Mkdirp d] ++ t)%list.
    rewrite !logs_app, Hlisted. reflexivity.
Qed.

Lemma getRepos_events (s : State P) :
  exists after,
    events (getRepos P cfg s) =
    ((if verbose cfg
      then [ConsoleLog
              ("Fetching information about all the user repositories for "
                 ++ dquote ++ username cfg ++ dquote)]
      else [])
       ++ Got (GH_API_URL ++ "users/" ++ username cfg
                 ++ "/repos?type=all&per_page=100") :: after)%list.
Proof.
  unfold getRepos, catch_, then_, call_got_repos, when, console_log,
    console_error, emit, resolve, throw, events.
  destruct (verbose cfg); cbv beta iota; cbn [world progressBar];
    destruct (got_repos P (world s) _) as [[body|body|code] w];
    cbn; eexists; reflexivity.
Qed.

(** [run] first says where it clones to and makes that directory.  If the
    directory cannot be made it stops there, before any request.  Otherwise
    the request for the listing comes next, before any directory of an item
    is made or any command is run. *)
Theorem run_lists_first (s : State P) :
  let base := cloneBaseDir cfg in
  let made := mkdirp P (world s) base in
  let out := run P cfg s in
  (fst made = false ->
   out = (Rejected (FsError base), mkState P (snd made) (progressBar s),
          [banner; Mkdirp base])) /\
  (fst made = true ->
   exists log after,
     events out =
       (banner :: Mkdirp base
          :: log ++ Got (GH_API_URL ++ "users/" ++ username cfg
                           ++ "/repos?type=all&per_page=100") :: after)%list /\
     gots log = [] /\ execs log = [] /\ mkdirps log = []).
Proof.
  cbv zeta. rewrite run_run. cbv zeta. split.
  - intros ->. reflexivity.
  - intros ->.
    set (s1 := mkState P (snd (mkdirp P (world s) (cloneBaseDir cfg)))
                 (progressBar s)).
    destruct (getRepos_events s1) as [after Hlisted].
    exists (if verbose cfg
            then [ConsoleLog
                    ("Fetching information about all the user repositories for "
                       ++ dquote ++ username cfg ++ dquote)]
            else []).
    destruct (settled (getRepos P cfg s1)) as [data|e];
      [destruct (settled (handleRepos P cfg data _)) as [v|e]|];
      rewrite events_triple, Hlisted; eexists;
      (split; [rewrite <- ?app_assoc; cbn [app]; reflexivity|]);
      destruct (verbose cfg); repeat split.
Qed.

(** A user without repositories: the listing is the only request, no
    directory but the base is made, no command is run, the bar is created
    empty and the chain fulfils. *)
Theorem run_empty_listing (s : State P) :
  let base := cloneBaseDir cfg in
  let made := mkdirp P (world s) base in
  let url := GH_API_URL ++ "users/" ++ username cfg
               ++ "/repos?type=all&per_page=100" in
  let fetched := got_repos P (snd made) url in
  let out := run P cfg s in
  fst made = true ->
  fst fetched = GotResponse [] ->
  settled out = Fulfilled tt /\
  final out = mkState P (snd fetched) (mkProgress 0 0) /\
  gots (events out) = [url] /\
  mkdirps (events out) = [base] /\
  execs (events out) = [] /\
  errors (events out) = [].
Proof.
  cbv zeta. intros Hmade Hgot.
  unfold run, getRepos, handleRepos, each, reduce_then, catch_, then_,
    call_mkdirp, call_got_repos, new_Progress, when, console_log,
    console_error, emit, resolve, throw.
  destruct (mkdirp P (world s) (cloneBaseDir cfg)) as [made w].
  cbn [fst snd] in Hmade, Hgot |- *. subst made.
  destruct (verbose cfg); cbv beta iota; cbn [world progressBar];
    destruct (got_repos P w _) as [g w']; cbn [fst] in Hgot; subst g;
    repeat split; reflexivity.
Qed.

End Coverage.

Section Verbosity.

Variable P : Platform.
Variable cfg : Options.

(** Matches two promises that differ in their [console.log] lines only. *)
Ltac alike_calls :=
  repeat first
    [ apply alike_when_log
    | apply alike_refl
    | apply alike_then; [|intros ?]
    | apply alike_catch; [|intros ?]
    | match goal with
      | |- alike _ (match ?x with Some _ => _ | None => _ end) _ => destruct x
      | |- alike _ (if ?x then _ else _) _ => destruct x
      end ].

Lemma getRepos_alike : alike P (getRepos P cfg) (getRepos P (quietly cfg)).
Proof. unfold getRepos. alike_calls. Qed.

Lemma cloneRepo_alike (item : Repo) :
  alike P (cloneRepo P cfg item) (cloneRepo P (quietly cfg) item).
Proof.
  unfold cloneRepo, execClone, afterClone, getFork, addRemote.
  alike_calls.
Qed.

Lemma handleRepos_alike (data : option (list Repo)) :
  alike P (handleRepos P cfg data) (handleRepos P (quietly cfg) data).
Proof.
  unfold handleRepos. destruct data as [list|]; [|apply alike_refl].
  apply alike_then; [apply alike_refl|intros _].
  apply alike_each. exact cloneRepo_alike.
Qed.

(** [verbose] changes what is written with [console.log] and nothing else:
    with it on or off the program settles alike, leaves the same world and
    progress bar, and makes the same directories, requests, commands and
    error reports in the same order. *)
Theorem verbose_only_logs (s : State P) :
  settled (run P cfg s) = settled (run P (quietly cfg) s) /\
  final (run P cfg s) = final (run P (quietly cfg) s) /\
  without_logs (events (run P cfg s)) =
    without_logs (events (run P (quietly cfg) s)).
Proof.
  revert s. change (alike P (run P cfg) (run P (quietly cfg))).
  unfold run.
  apply alike_then.
  - intros s. repeat split.
  - intros _. apply alike_then; [apply alike_refl|intros _].
    apply alike_then; [|intros _; apply alike_refl].
    apply alike_then; [apply getRepos_alike|intros data].
    apply handleRepos_alike.
Qed.

End Verbosity.

Section Completion.

Variable P : Platform.
Variable cfg : Options.

Lemma getRepos_fulfilled (s : State P) (list : list Repo) :
  settled (getRepos P cfg s) = Fulfilled (Some list) ->
  fst (got_repos P (world s)
         (GH_API_URL ++ "users/" ++ username cfg
            ++ "/repos?type=all&per_page=100")) = GotResponse list /\
  progressBar (final (getRepos P cfg s)) = progressBar s.
Proof.
  unfold getRepos, catch_, then_, call_got_repos, when, console_log,
    console_error, emit, resolve, throw, settled, final.
  destruct (verbose cfg); cbv beta iota; cbn [world progressBar];
    destruct (got_repos P (world s) _) as [[body|body|code] w];
    cbn [settle_got fst snd response progressBar]; intros H;
    try discriminate H; injection H as ->; split; reflexivity.
Qed.

(** When the chain of [run] fulfils, the forge had answered the listing and
    the progress bar is full: two ticks for each repository listed. *)
Theorem run_fills_the_bar (s : State P) :
  let made := mkdirp P (world s) (cloneBaseDir cfg) in
  let fetched := got_repos P (snd made)
                   (GH_API_URL ++ "users/" ++ username cfg
                      ++ "/repos?type=all&per_page=100") in
  settled (run P cfg s) = Fulfilled tt ->
  exists list,
    fst fetched = GotResponse list /\
    progressBar (final (run P cfg s)) =
      mkProgress (length list * 2) (length list * 2).
Proof.
  cbv zeta. rewrite run_run. cbv zeta.
  set (s1 := mkState P (snd (mkdirp P (world s) (cloneBaseDir cfg)))
               (progressBar s)).
  destruct (fst (mkdirp P (world s) (cloneBaseDir cfg))); [|discriminate].
  destruct (settled (getRepos P cfg s1)) as [[list|]|e] eqn:Hlisted;
    [| |discriminate].
  - destruct (getRepos_fulfilled s1 list Hlisted) as [Hgot _].
    rewrite handleRepos_run.
    destruct (each_ticks P cfg list
                (mkState P (world (final (getRepos P cfg s1)))
                   (mkProgress (length list * 2) 0)))
      as (k & _ & Hbar & Hfull).
    destruct (settled (each P (cloneRepo P cfg) list _)) as [v|e] eqn:Hs;
      rewrite settled_triple, final_triple; [|discriminate].
    intros _. exists list. split; [exact Hgot|].
    rewrite Hbar, (Hfull v eq_refl). reflexivity.
  - rewrite handleRepos_undefined, settled_triple. discriminate.
Qed.

End Completion.

(** *** The command line *)

Section CommandLine.

Lemma truthy_not_empty (text : option string) :
  truthy text = true -> exists t, text = Some t /\ t <> EmptyString.
Proof.
  destruct text as [t|]; simpl; [|discriminate].
  intros H. exists t. split; [reflexivity|].
  intros ->. discriminate H.
Qed.

(** [maezato] is called only when the arguments parse, neither [--version]
    nor [--help] is set, one or two positional arguments are given and a
    non-empty token is at hand.  It then gets the first argument as the
    username, the resolved second argument, or the resolved current
    directory, as the base, the token of the flag in preference to that of
    the environment, and flags that default to [false]; only the banner has
    been printed. *)
Theorem main_launch (pkg : Package) (sh : Shell) (options : Options) :
  snd (main pkg sh) = Launch options ->
  exists opts user dir,
    parse_argv sh = inl opts /\
    flag_set (opt_version opts) = false /\
    flag_set (opt_help opts) = false /\
    (opt_args opts = [user] /\ dir = "." \/ opt_args opts = [user; dir]) /\
    username options = user /\
    cloneBaseDir options = path_resolve sh dir /\
    token options <> EmptyString /\
    (truthy (opt_token opts) = true -> opt_token opts = Some (token options)) /\
    (truthy (opt_token opts) = false ->
     GITHUB_TOKEN sh = Some (token options)) /\
    verbose options = boolean_or_false (opt_verbose opts) /\
    omitUsername options = boolean_or_false (opt_omitUsername opts) /\
    fst (main pkg sh) =
      [ConsoleLog (pkg_name pkg ++ " - " ++ pkg_description pkg)].
Proof.
  unfold main.
  destruct (parse_argv sh) as [opts|message]; [|discriminate].
  destruct (flag_set (opt_version opts)) eqn:Hversion; [discriminate|].
  destruct (flag_set (opt_help opts)) eqn:Hhelp; [discriminate|].
  destruct (opt_args opts) as [|user [|dir [|extra args]]] eqn:Hargs;
    cbn [length Nat.eqb negb andb app nth]; cbv zeta;
    cbn [length Nat.eqb negb andb app nth]; try discriminate.
  - destruct (truthy (or_else (opt_token opts) (GITHUB_TOKEN sh))) eqn:Htoken;
      cbn [negb snd fst]; [|discriminate].
    intros H. injection H as <-. cbn [username cloneBaseDir token verbose
                                      omitUsername].
    exists opts, user, ".".
    destruct (truthy_not_empty _ Htoken) as (t & Ht & Hne).
    rewrite Ht. unfold or_else in Ht.
    repeat split; try reflexivity; try assumption;
      try (left; split; [assumption|reflexivity]).
    + intros H. rewrite H in Ht. exact Ht.
    + intros H. rewrite H in Ht. exact Ht.
  - destruct (truthy (or_else (opt_token opts) (GITHUB_TOKEN sh))) eqn:Htoken;
      cbn [negb snd fst]; [|discriminate].
    intros H. injection H as <-. cbn [username cloneBaseDir token verbose
                                      omitUsername].
    exists opts, user, dir.
    destruct (truthy_not_empty _ Htoken) as (t & Ht & Hne).
    rewrite Ht. unfold or_else in Ht.
    repeat split; try reflexivity; try assumption;
      try (right; assumption).
    + intros H. rewrite H in Ht. exact Ht.
    + intros H. rewrite H in Ht. exact Ht.
Qed.

(** The script exits with 0 only for [--version] and [--help]; every other
    exit is with 1: arguments that do not parse, a wrong number of
    positional arguments, or no token in the flag or the environment. *)
Theorem main_exit_code (pkg : Package) (sh : Shell) (code : nat) :
  snd (main pkg sh) = Exit code ->
  (code = 0 /\
   exists opts,
     parse_argv sh = inl opts /\
     (flag_set (opt_version opts) = true \/ flag_set (opt_help opts) = true)) \/
  (code = 1 /\
   ((exists message,
       parse_argv sh = inr message /\
       fst (main pkg sh) = [ConsoleError message]) \/
    (exists opts,
       parse_argv sh = inl opts /\
       flag_set (opt_version opts) = false /\
       flag_set (opt_help opts) = false /\
       ((length (opt_args opts) <> 1 /\ length (opt_args opts) <> 2) \/
        truthy (or_else (opt_token opts) (GITHUB_TOKEN sh)) = false)))).
Proof.
  unfold main.
  destruct (parse_argv sh) as [opts|message].
  - destruct (flag_set (opt_version opts)) eqn:Hversion.
    + intros H. injection H as <-. left. split; [reflexivity|].
      exists opts. split; [reflexivity|left; assumption].
    + destruct (flag_set (opt_help opts)) eqn:Hhelp.
      * intros H. injection H as <-. left. split; [reflexivity|].
        exists opts. split; [reflexivity|right; assumption].
      * destruct (negb (length (opt_args opts) =? 1)%nat
                  && negb (length (opt_args opts) =? 2)%nat) eqn:Hargs.
        -- intros H. injection H as <-. right. split; [reflexivity|].
           right. exists opts. repeat split; try reflexivity; try assumption. left.
           apply andb_true_iff in Hargs. destruct Hargs as [H1 H2].
           apply negb_true_iff in H1, H2.
           apply Nat.eqb_neq in H1, H2. split; assumption.
        -- cbv zeta.
           destruct (truthy (or_else (opt_token opts) (GITHUB_TOKEN sh)))
             eqn:Htoken; cbn [negb snd]; [discriminate|].
           intros H. injection H as <-. right. split; [reflexivity|].
           right. exists opts. repeat split; try reflexivity; try assumption.
           right. assumption.
  - intros H. injection H as <-. right. split; [reflexivity|].
    left. exists message. split; reflexivity.
Qed.

(** Unless [maezato] is called the command touches nothing: it makes no
    directory, sends no request and runs no [git]; and it is not called
    without a token. *)
Theorem command_needs_token
    (P : Platform) (pkg : Package) (sh : Shell) (s : State P) :
  let done := command P pkg sh s in
  (snd done = None ->
   gots (fst done) = [] /\ execs (fst done) = [] /\ mkdirps (fst done) = []) /\
  (forall opts,
     parse_argv sh = inl opts ->
     truthy (or_else (opt_token opts) (GITHUB_TOKEN sh)) = false ->
     snd done = None).
Proof.
  cbv zeta. unfold command, main. split.
  - destruct (parse_argv sh) as [opts|message]; [|repeat split].
    destruct (flag_set (opt_version opts)); [repeat split|].
    destruct (flag_set (opt_help opts)); [repeat split|].
    destruct (negb (length (opt_args opts) =? 1)%nat
              && negb (length (opt_args opts) =? 2)%nat); [repeat split|].
    cbv zeta.
    destruct (truthy (or_else (opt_token opts) (GITHUB_TOKEN sh)));
      cbn [negb snd fst]; [discriminate|repeat split].
  - intros opts -> Htoken.
    destruct (flag_set (opt_version opts)); [reflexivity|].
    destruct (flag_set (opt_help opts)); [reflexivity|].
    destruct (negb (length (opt_args opts) =? 1)%nat
              && negb (length (opt_args opts) =? 2)%nat); [reflexivity|].
    cbv zeta. rewrite Htoken. reflexivity.
Qed.

End CommandLine.

(** ** More runs on scripted platforms *)

Module Cases.

Import Demo.

(** The forge knows [y] but not what it was forked from. *)
Definition orphan : Platform :=
  platform every_command_succeeds (forge_repos [y]) (fun url => GotResponse y).

(** The forge knows the parent of [y] but not the source of its network. *)
Definition half_known : Platform :=
  platform every_command_succeeds (forge_repos [y])
    (fun url => GotResponse
                  (mkRepo "y" "git@github.com:u/y.git" true "u"
                     (Some y_parent) None)).


(** A file system on which no directory can be made. *)
Definition read_only : Platform :=
  {| World := nat;
     exec := fun w cwd command => (ok, S w);
     got_repos := fun w url => (GotResponse [x], S w);
     got_repo := fun w url => (forge_repo url, S w);
     mkdirp := fun w p => (false, S w);
     path_join := posix_join;
     JSON_parse := parse_literal |}.

(** A user without repositories. *)
Definition newcomer : Platform :=
  platform every_command_succeeds (forge_repos []) forge_repo.

Definition resolve_in_home (p : string) : string := "/home/u/" ++ p.

(** [maezato --token secret u] *)
Definition with_flag : Shell :=
  mkShell (inl (mkOpts None None None (Some "secret") None ["u"]))
    (Some "from-environment") "usage" resolve_in_home.

(** [GITHUB_TOKEN=from-environment maezato -v u repos] *)
Definition with_environment : Shell :=
  mkShell (inl (mkOpts None None (Some true) None None ["u"; "repos"]))
    (Some "from-environment") "usage" resolve_in_home.

(** [maezato u] with no token anywhere *)
Definition without_token : Shell :=
  mkShell (inl (mkOpts None None None None None ["u"])) None "usage"
    resolve_in_home.

(** [maezato --help] *)
Definition asking_help : Shell :=
  mkShell (inl (mkOpts (Some true) None None None None [])) None "usage"
    resolve_in_home.

End Cases.

Section MoreRuns.

Import Demo.
Import Cases.

Lemma getFork_links_fork_witness :
  settled (getFork existing_remote options "base/u/fork/y" "u" "y"
             (start existing_remote 0)) = Fulfilled (Some y_detail) /\
  final (getFork existing_remote options "base/u/fork/y" "u" "y"
           (start existing_remote 0)) =
    mkState existing_remote 3 (mkProgress 0 0) /\
  errors (events (getFork existing_remote options "base/u/fork/y" "u" "y"
                    (start existing_remote 0))) = [].
Proof.
  refine (getFork_links_fork existing_remote options "base/u/fork/y" "u" "y"
            (start existing_remote 0) y_detail y_parent y_source
            eq_refl eq_refl eq_refl _ _).
  - right. apply has. reflexivity.
  - left. reflexivity.
Defined.

Lemma getFork_incomplete_lineage_witness :
  (settled (getFork orphan options "base/u/fork/y" "u" "y" (start orphan 0)) =
     Rejected (TypeError "Cannot read property 'body' of undefined") /\
   execs (events (getFork orphan options "base/u/fork/y" "u" "y"
                    (start orphan 0))) = [] /\
   errors (events (getFork orphan options "base/u/fork/y" "u" "y"
                     (start orphan 0))) = [" Getting fork details failed."]) /\
  execs (events (getFork half_known options "base/u/fork/y" "u" "y"
                   (start half_known 0))) =
    [("base/u/fork/y", "git remote add upstream git@github.com:up/y.git")].
Proof.
  split.
  - apply (proj1 (getFork_incomplete_lineage orphan options "base/u/fork/y"
                    "u" "y" (start orphan 0) y eq_refl)).
    reflexivity.
  - refine (proj1 (proj2 (proj2 (getFork_incomplete_lineage half_known options
                                   "base/u/fork/y" "u" "y"
                                   (start half_known 0) _ eq_refl)
                            y_parent eq_refl eq_refl _))).
    left. reflexivity.
Defined.


Lemma getFork_fetch_failure_witness :
  getFork calm options "base/u/fork/lost" "u" "lost" (start calm 0) =
  (Fulfilled None, mkState calm 1 (mkProgress 0 0),
   [Got "https://api.github.com/repos/u/lost";
    ConsoleError " Getting fork details failed."; ConsoleError "Not Found"]).
Proof.
  apply (proj1 (getFork_fetch_failure calm options "base/u/fork/lost" "u"
                  "lost" (start calm 0)) "Not Found").
  reflexivity.
Defined.

Lemma cloneRepo_without_target_witness :
  each read_only (cloneRepo read_only options) [x; y] (start read_only 0) =
  (Rejected (FsError "base/u/mine"), mkState read_only 1 (mkProgress 0 0),
   [Mkdirp "base/u/mine"]).
Proof.
  apply (proj2 (cloneRepo_without_target read_only options x [y]
                  (start read_only 0) eq_refl)).
Defined.

Lemma run_console_witness :
  logs (events (run calm options (start calm 0))) =
  ["Cloning to a structure under " ++ dquote ++ "base" ++ dquote;
   "All done, thank you!"].
Proof.
  exact (run_console calm options (start calm 0) eq_refl).
Defined.

Lemma run_lists_first_witness :
  run read_only options (start read_only 0) =
  (Rejected (FsError "base"), mkState read_only 1 (mkProgress 0 0),
   [ConsoleLog ("Cloning to a structure under " ++ dquote ++ "base" ++ dquote);
    Mkdirp "base"]).
Proof.
  apply (proj1 (run_lists_first read_only options (start read_only 0))).
  reflexivity.
Defined.

Lemma run_empty_listing_witness :
  settled (run newcomer options (start newcomer 0)) = Fulfilled tt /\
  final (run newcomer options (start newcomer 0)) =
    mkState newcomer 2 (mkProgress 0 0) /\
  gots (events (run newcomer options (start newcomer 0))) =
    ["https://api.github.com/users/u/repos?type=all&per_page=100"] /\
  mkdirps (events (run newcomer options (start newcomer 0))) = ["base"] /\
  execs (events (run newcomer options (start newcomer 0))) = [] /\
  errors (events (run newcomer options (start newcomer 0))) = [].
Proof.
  exact (run_empty_listing newcomer options (start newcomer 0)
           eq_refl eq_refl).
Defined.

Lemma main_launch_witness :
  exists opts user dir,
    parse_argv with_flag = inl opts /\
    flag_set (opt_version opts) = false /\
    flag_set (opt_help opts) = false /\
    (opt_args opts = [user] /\ dir = "." \/ opt_args opts = [user; dir]) /\
    username (mkOptions "secret" false false "u" "/home/u/.") = user /\
    cloneBaseDir (mkOptions "secret" false false "u" "/home/u/.") =
      path_resolve with_flag dir /\
    token (mkOptions "secret" false false "u" "/home/u/.") <> EmptyString /\
    (truthy (opt_token opts) = true ->
     opt_token opts =
       Some (token (mkOptions "secret" false false "u" "/home/u/."))) /\
    (truthy (opt_token opts) = false ->
     GITHUB_TOKEN with_flag =
       Some (token (mkOptions "secret" false false "u" "/home/u/."))) /\
    verbose (mkOptions "secret" false false "u" "/home/u/.") =
      boolean_or_false (opt_verbose opts) /\
    omitUsername (mkOptions "secret" false false "u" "/home/u/.") =
      boolean_or_false (opt_omitUsername opts) /\
    fst (main package_json with_flag) =
      [ConsoleLog (pkg_name package_json ++ " - "
                     ++ pkg_description package_json)].
Proof.
  exact (main_launch package_json with_flag
           (mkOptions "secret" false false "u" "/home/u/.") eq_refl).
Defined.

Lemma main_exit_code_witness :
  (0 = 0 /\
   exists opts,
     parse_argv asking_help = inl opts /\
     (flag_set (opt_version opts) = true \/ flag_set (opt_help opts) = true)) \/
  (0 = 1 /\
   ((exists message,
       parse_argv asking_help = inr message /\
       fst (main package_json asking_help) = [ConsoleError message]) \/
    (exists opts,
       parse_argv asking_help = inl opts /\
       flag_set (opt_version opts) = false /\
       flag_set (opt_help opts) = false /\
       ((length (opt_args opts) <> 1 /\ length (opt_args opts) <> 2) \/
        truthy (or_else (opt_token opts) (GITHUB_TOKEN asking_help)) = false)))).
Proof.
  exact (main_exit_code package_json asking_help 0 eq_refl).
Defined.

Lemma run_fills_the_bar_witness :
  exists list,
    fst (got_repos calm 1
           "https://api.github.com/users/u/repos?type=all&per_page=100") =
      GotResponse list /\
    progressBar (final (run calm options (start calm 0))) =
      mkProgress (length list * 2) (length list * 2).
Proof.
  exact (run_fills_the_bar calm options (start calm 0) eq_refl).
Defined.

Lemma command_needs_token_witness :
  snd (command calm package_json without_token (start calm 0)) = None /\
  gots (fst (command calm package_json without_token (start calm 0))) = [].
Proof.
  pose proof (command_needs_token calm package_json without_token
                (start calm 0)) as [Hnothing Hexit].
  pose proof (Hexit _ eq_refl eq_refl) as Hnone.
  split; [exact Hnone|exact (proj1 (Hnothing Hnone))].
Defined.

(** The two ways to pass the token, and what [maezato] is called with. *)
Example main_with_environment :
  main package_json with_environment =
  ([ConsoleLog "maezato - Clone all repositories of a given user at GitHub"],
   Launch (mkOptions "from-environment" true false "u" "/home/u/repos")).
Proof. reflexivity. Qed.

End MoreRuns.
